(** * A max segment tree with point update and range query

    Shallow embedding of [segment_tree.py]: the classes [TreeNode] and
    [SegmentTree], their methods [update], [query], [inorder] and
    [build_tree], followed by the properties of the tree that the
    specification states.

    Python integers are unbounded, so they are [Z].  A Python exception is
    an explicit [Raise] outcome.  Nodes are exclusively owned by their
    parent (no sharing, no cycles), so in-place mutation of a node is
    modelled by returning the mutated node; a method that raises hands back
    the object as the exception left it. *)

From Stdlib Require Import String ZArith List Bool Lia.
From Stdlib Require DecimalString.
Import ListNotations.
Local Open Scope Z_scope.

(** ** Python runtime: exceptions, list indexing *)

Inductive exn : Type :=
| AttributeError   (* attribute access or method call on [None] *)
| IndexError       (* list index out of range *)
| RecursionError.  (* the interpreter's recursion limit was reached *)

Inductive result (A : Type) : Type :=
| Ok (a : A)
| Raise (e : exn).
Arguments Ok {A} a.
Arguments Raise {A} e.

Definition bind {A B : Type} (m : result A) (k : A -> result B) : result B :=
  match m with
  | Ok a => k a
  | Raise e => Raise e
  end.

Notation "x <- m ;; k" := (bind m (fun x => k))
  (at level 61, m at next level, right associativity).

(** [l[i]]: a negative index counts from the end of the list, and an
    index outside [-len, len-1] raises [IndexError]. *)
Definition getitem {A : Type} (l : list A) (i : Z) : result A :=
  let n := Z.of_nat (length l) in
  let j := if i <? 0 then i + n else i in
  if (0 <=? j) && (j <? n) then
    match nth_error l (Z.to_nat j) with
    | Some x => Ok x
    | None => Raise IndexError
    end
  else Raise IndexError.

(** [l[i] = v] for an index [0 <= i < len(l)]. *)
Fixpoint setitem_nat {A : Type} (l : list A) (i : nat) (v : A) : list A :=
  match l, i with
  | [], _ => []
  | _ :: t, O => v :: t
  | h :: t, S i' => h :: setitem_nat t i' v
  end.

Definition setitem {A : Type} (l : list A) (i : Z) (v : A) : list A :=
  setitem_nat l (Z.to_nat i) v.

(** [l[s : e+1]], the inclusive slice, for [0 <= s]. *)
Definition slice {A : Type} (l : list A) (s e : Z) : list A :=
  firstn (Z.to_nat (e - s + 1)) (skipn (Z.to_nat s) l).

(** The builtin [max] of a non-empty list of integers ([max([])] raises a
    [ValueError]; here it is [None]). *)
Definition py_max (l : list Z) : option Z :=
  match l with
  | [] => None
  | x :: t => Some (fold_left Z.max t x)
  end.

(** ** The data model *)

(** A reference to a node: either [None] or a [TreeNode] object with the
    attributes that [TreeNode.__init__] sets, plus [inorder_pos], an
    attribute that only [inorder] creates (absent until then). *)
Inductive object : Type :=
| PyNone
| TreeNode (start end_ : Z) (label : string) (value : Z)
           (is_selected branch : bool) (inorder_pos : option Z)
           (left right : object).

(** Attribute reads [o.value] and [o.branch]. *)
Definition get_value (o : object) : result Z :=
  match o with
  | PyNone => Raise AttributeError
  | TreeNode _ _ _ v _ _ _ _ _ => Ok v
  end.

Definition get_branch (o : object) : result bool :=
  match o with
  | PyNone => Raise AttributeError
  | TreeNode _ _ _ _ _ b _ _ _ => Ok b
  end.

(** [a if a > b else b], the aggregation that [update] and [build_tree]
    write out with an [if]. *)
Definition pick_max (a b : Z) : Z := if a >? b then a else b.

(** [str(n)] for an integer: its decimal digits, with a leading minus
    sign when negative. *)
Definition str (n : Z) : string :=
  DecimalString.NilZero.string_of_int (Z.to_int n).

(** The plotting calls that [draw] issues, in the order it issues them.
    Of the arguments only those that vary are recorded: the marker size
    [50], the colour ['k'] and the font size ['x-small'] are constants, and
    [text] is anchored at [x + 0.1]. *)
Inductive line_width : Type :=
| lw_1_5   (* [line_width = 1.5] *)
| lw_4.    (* [line_width = 4] *)

Inductive plt_call : Type :=
| scatter (x y : Z)
    (* [plt.scatter([x], [y], 50, 'k')] *)
| text (x y : Z) (s : string) (bold : bool)
    (* [plt.text(x+0.1, y, s, fontsize='x-small')], with [weight='bold'] and
       a background colour when [bold] *)
| plot (x x_next y y_next : Z) (lw : line_width).
    (* [plt.plot([x, x_next], [y, y_next], lw=line_width)] *)

Module TreeNode.

(** [TreeNode.update(self, idx, value)].  Returns the node after the
    call together with the outcome. *)
Fixpoint update (self : object) (idx value : Z) : object * result unit :=
  match self with
  | PyNone => (PyNone, Raise AttributeError)
  | TreeNode s e lbl v sel br pos l r =>
      if s =? e then (TreeNode s e lbl value sel br pos l r, Ok tt)
      else
        let mid := (s + e) / 2 in
        let '(l', r', res) :=
          if idx <=? mid
          then let '(l', res) := update l idx value in (l', r, res)
          else let '(r', res) := update r idx value in (l, r', res) in
        match res with
        | Raise x => (TreeNode s e lbl v sel br pos l' r', Raise x)
        | Ok _ =>
            match get_value l', get_value r' with
            | Ok lv, Ok rv =>
                (TreeNode s e lbl (pick_max lv rv) sel br pos l' r', Ok tt)
            | Raise x, _ => (TreeNode s e lbl v sel br pos l' r', Raise x)
            | _, Raise x => (TreeNode s e lbl v sel br pos l' r', Raise x)
            end
        end
  end.

(** [TreeNode.query(self, start, end)]: reads only. *)
Fixpoint query (self : object) (qstart qend : Z) : result Z :=
  match self with
  | PyNone => Raise AttributeError
  | TreeNode s e _ v _ _ _ l r =>
      if (s =? qstart) && (e =? qend) then Ok v
      else
        let mid := (s + e) / 2 in
        if qend <=? mid then query l qstart qend
        else if qstart >? mid then query r qstart qend
        else
          left_max <- query l qstart mid ;;
          right_max <- query r (mid + 1) qend ;;
          Ok (Z.max left_max right_max)
  end.

(** [TreeNode.inorder(self, num, key_list)].  [num] is the one-element
    list used as a shared counter and [key_list] the shared output list;
    both are threaded through.  The guards [if self.left:] and
    [if self.right:] skip the call on [None], which is the [PyNone]
    case here. *)
Fixpoint inorder (self : object) (num : Z) (key_list : list string)
  : object * Z * list string :=
  match self with
  | PyNone => (PyNone, num, key_list)
  | TreeNode s e lbl v sel br _ l r =>
      let '(l', num1, keys1) := inorder l num key_list in
      let pos := num1 in
      let keys2 := keys1 ++ [lbl] in
      let num2 := num1 + 1 in
      let '(r', num3, keys3) := inorder r num2 keys2 in
      (TreeNode s e lbl v sel br (Some pos) l' r', num3, keys3)
  end.

(** The block that [draw] runs for a child, [if self.left: ...] and
    [if self.right: ...]: read the child's position, choose the line
    width by its [branch] flag, plot the edge, then draw the child.
    [drawn] is the outcome of the recursive call [child.draw(y_next)]. *)
Definition draw_child (x y y_next : Z) (child : object)
           (drawn : list plt_call * result unit)
  : list plt_call * result unit :=
  match child with
  | PyNone => ([], Ok tt)
  | TreeNode _ _ _ _ _ child_branch child_pos _ _ =>
      match child_pos with
      | None => ([], Raise AttributeError)
      | Some x_next =>
          let line_width := if child_branch then lw_4 else lw_1_5 in
          let '(calls, res) := drawn in
          (plot x x_next y y_next line_width :: calls, res)
      end
  end.

(** [TreeNode.draw(self, y)]: the plotting calls issued, and the outcome.
    Reading [self.inorder_pos] raises [AttributeError] on a node that no
    traversal has visited. *)
Fixpoint draw (self : object) (y : Z) : list plt_call * result unit :=
  match self with
  | PyNone => ([], Raise AttributeError)
  | TreeNode s e lbl v sel _ pos l r =>
      match pos with
      | None => ([], Raise AttributeError)
      | Some x =>
          let s_ := ("(" ++ str v ++ ") " ++ lbl ++ " [" ++ str s ++ ":"
                         ++ str e ++ "]")%string in
          let own := [scatter x y; text x y s_ sel] in
          let y_next := y - 1 in
          let '(calls_l, res_l) := draw_child x y y_next l (draw l y_next) in
          match res_l with
          | Raise ex => (own ++ calls_l, Raise ex)
          | Ok _ =>
              let '(calls_r, res_r) := draw_child x y y_next r (draw r y_next) in
              (own ++ calls_l ++ calls_r, res_r)
          end
      end
  end.

End TreeNode.

Record SegmentTree : Type := mkSegmentTree {
values : list Z;
labels : list string;
selected_idx : Z;
branch_idx : Z;
root : object
}.

Module SegmentTree.

Section Build.
(** The attributes that [__init__] stores before it calls
    [build_tree]. *)
Variable self_values : list Z.
Variable self_labels : list string.
Variable self_selected_idx self_branch_idx : Z.

(** [SegmentTree.build_tree(self, start, end)].  The recursion is not
    structural, so it is bounded by [depth], the number of nested
    calls the interpreter still allows; when none is left the call
    raises [RecursionError]. *)
Fixpoint build_tree (depth : nat) (start end_ : Z) : result object :=
  match depth with
  | O => Raise RecursionError
  | S d =>
      if start =? end_ then
        label <- getitem self_labels start ;;
        let selected_var := self_selected_idx =? start in
        let branch_var := self_branch_idx =? start in
        v <- getitem self_values start ;;
        Ok (TreeNode start end_ label v selected_var branch_var None
                     PyNone PyNone)
      else
        let mid := (start + end_) / 2 in
        l <- build_tree d start mid ;;
        r <- build_tree d (mid + 1) end_ ;;
        lv <- get_value l ;;
        rv <- get_value r ;;
        rb <- get_branch r ;;
        lb <- get_branch l ;;
        Ok (TreeNode start end_ EmptyString (pick_max lv rv) false
                     (rb || lb) None l r)
  end.
End Build.

(** [SegmentTree(values, labels, selected_idx, branch_idx)]. *)
Definition init (depth : nat) (vals : list Z) (lbls : list string)
           (sel br : Z) : result SegmentTree :=
  r <- build_tree vals lbls sel br depth 0 (Z.of_nat (length vals) - 1) ;;
  Ok (mkSegmentTree vals lbls sel br r).

(** The default of [selected_idx] and [branch_idx]. *)
Definition no_idx : Z := -1.

Definition update (self : SegmentTree) (idx value : Z)
  : SegmentTree * result unit :=
  let '(r, res) := TreeNode.update (root self) idx value in
  (mkSegmentTree (values self) (labels self) (selected_idx self)
                 (branch_idx self) r, res).

Definition query (self : SegmentTree) (qstart qend : Z) : result Z :=
  TreeNode.query (root self) qstart qend.

(** [SegmentTree.inorder(self)]: the tree after the call (positions
    assigned) and the returned [key_list]. *)
Definition inorder (self : SegmentTree) : SegmentTree * list string :=
  match root self with
  | PyNone => (self, [])
  | r =>
      let '(r', _, key_list) := TreeNode.inorder r 0 [] in
      (mkSegmentTree (values self) (labels self) (selected_idx self)
                     (branch_idx self) r', key_list)
  end.

(** [SegmentTree.draw(self)]: the tree after the call (the traversal has
    assigned the positions), the plotting calls and the outcome. *)
Definition draw (self : SegmentTree)
  : SegmentTree * list plt_call * result unit :=
  let '(self', _) := inorder self in
  match root self' with
  | PyNone => (self', [], Ok tt)
  | r => let '(calls, res) := TreeNode.draw r 0 in (self', calls, res)
  end.

End SegmentTree.

(** The scenario of the specification. *)
Definition scenario_values : list Z := [30; 100; 70; 40; 20; 90; 10; 50; 80; 60].
Definition scenario_labels : list string :=
  ["a"; "b"; "c"; "d"; "e"; "f"; "g"; "h"; "i"; "j"]%string.

(** [SegmentTree(scenario_values, scenario_labels)]. *)
Definition scenario_tree : SegmentTree :=
  Eval vm_compute in
    match SegmentTree.init 5 scenario_values scenario_labels
                           SegmentTree.no_idx SegmentTree.no_idx with
    | Ok st => st
    | Raise _ => mkSegmentTree [] [] 0 0 PyNone
    end.

(** The [size] of the specification: [len(self.values)]. *)
Definition size (self : SegmentTree) : Z := Z.of_nat (length (values self)).

(** ** Vocabulary of the properties *)

(** The array cell [A[i]] as a total function ([d] outside the list). *)
Definition arr {A : Type} (d : A) (l : list A) (i : Z) : A :=
  nth (Z.to_nat i) l d.

(** [cells f s k] lists [f s, f (s+1), ..., f (s+k)]. *)
Fixpoint cells {A : Type} (f : Z -> A) (s : Z) (k : nat) : list A :=
  match k with
  | O => [f s]
  | S k' => f s :: cells f (s + 1) k'
  end.

(** The cells of the inclusive range [[s, e]]. *)
Definition seg {A : Type} (f : Z -> A) (s e : Z) : list A :=
  cells f s (Z.to_nat (e - s)).

(** Maximum of a list, [0] on the empty one. *)
Definition lmax (l : list Z) : Z :=
  match l with
  | [] => 0
  | x :: t => fold_left Z.max t x
  end.

(** The array after [A[idx] = v], as a function. *)
Definition override (f : Z -> Z) (idx v : Z) (i : Z) : Z :=
  if i =? idx then v else f i.

(** [covers o s e]: [o] is a node whose range is [[s, e]]. *)
Definition covers (o : object) (s e : Z) : Prop :=
  match o with
  | PyNone => False
  | TreeNode s' e' _ _ _ _ _ _ _ => s' = s /\ e' = e
  end.

(** The structural invariant of the data model: a leaf has [start = end]
    and no children; an internal node has [start < end], two children
    covering [[start, mid]] and [[mid+1, end]] for
    [mid = (start + end) / 2] (floor), and holds the maximum of its
    children's values. *)
Inductive invariant : object -> Prop :=
| inv_leaf : forall s lbl v sel br pos,
    invariant (TreeNode s s lbl v sel br pos PyNone PyNone)
| inv_internal : forall s e lbl sel br pos l r lv rv,
    s < e ->
    invariant l -> invariant r ->
    covers l s ((s + e) / 2) ->
    covers r ((s + e) / 2 + 1) e ->
    get_value l = Ok lv -> get_value r = Ok rv ->
    invariant (TreeNode s e lbl (Z.max lv rv) sel br pos l r).

(** [leaves_hold f o]: every node of [o] with [start = end] holds
    [f start]. *)
Fixpoint leaves_hold (f : Z -> Z) (o : object) : Prop :=
  match o with
  | PyNone => True
  | TreeNode s e _ v _ _ _ l r =>
      (s = e -> v = f s) /\ leaves_hold f l /\ leaves_hold f r
  end.

(** Labels in in-order, number of nodes, and the node with the in-order
    positions assigned from [num] on: what [inorder] computes. *)
Fixpoint keys (o : object) : list string :=
  match o with
  | PyNone => []
  | TreeNode _ _ lbl _ _ _ _ l r => keys l ++ lbl :: keys r
  end.

Fixpoint node_count (o : object) : Z :=
  match o with
  | PyNone => 0
  | TreeNode _ _ _ _ _ _ _ l r => node_count l + 1 + node_count r
  end.

Fixpoint positioned (o : object) (num : Z) : object :=
  match o with
  | PyNone => PyNone
  | TreeNode s e lbl v sel br _ l r =>
      TreeNode s e lbl v sel br (Some (num + node_count l))
               (positioned l num) (positioned r (num + node_count l + 1))
  end.

(** The node with every [inorder_pos] removed: all that is left is the
    shape, the ranges, the labels, the values and the flags. *)
Fixpoint forget_pos (o : object) : object :=
  match o with
  | PyNone => PyNone
  | TreeNode s e lbl v sel br _ l r =>
      TreeNode s e lbl v sel br None (forget_pos l) (forget_pos r)
  end.

(** The node with every [value] set to [0]: all but the values. *)
Fixpoint forget_values (o : object) : object :=
  match o with
  | PyNone => PyNone
  | TreeNode s e lbl _ sel br pos l r =>
      TreeNode s e lbl 0 sel br pos (forget_values l) (forget_values r)
  end.

(** [x, sep, y, sep, z]: a separator between consecutive elements. *)
Fixpoint intersperse {A : Type} (sep : A) (l : list A) : list A :=
  match l with
  | [] => []
  | x :: t =>
      match t with
      | [] => [x]
      | _ :: _ => x :: sep :: intersperse sep t
      end
  end.

Definition nonempty (s : string) : bool :=
  match s with
  | EmptyString => false
  | String _ _ => true
  end.

(** Positions in the tree: the way down from the root. *)
Inductive dir : Type := GoLeft | GoRight.

Fixpoint subtree (o : object) (p : list dir) : object :=
  match p with
  | [] => o
  | d :: p' =>
      match o with
      | PyNone => PyNone
      | TreeNode _ _ _ _ _ _ _ l r =>
          subtree (match d with GoLeft => l | GoRight => r end) p'
      end
  end.

(** The way [update] descends for [idx]. *)
Fixpoint path_to (o : object) (idx : Z) : list dir :=
  match o with
  | PyNone => []
  | TreeNode s e _ _ _ _ _ l r =>
      if s =? e then []
      else if idx <=? (s + e) / 2 then GoLeft :: path_to l idx
      else GoRight :: path_to r idx
  end.


(** A sequence of [update(idx, value)] calls, stopping at the first that
    raises. *)
Fixpoint updates (self : SegmentTree) (calls : list (Z * Z))
  : SegmentTree * result unit :=
  match calls with
  | [] => (self, Ok tt)
  | (idx, v) :: rest =>
      match SegmentTree.update self idx v with
      | (self', Ok _) => updates self' rest
      | (self', Raise x) => (self', Raise x)
      end
  end.

(** The array after the same sequence of assignments. *)
Fixpoint assignments (a : list Z) (calls : list (Z * Z)) : list Z :=
  match calls with
  | [] => a
  | (idx, v) :: rest => assignments (setitem a idx v) rest
  end.

Definition valid_call (n : Z) (c : Z * Z) : Prop := 0 <= fst c < n.

(** [models a self]: the tree satisfies the invariant, spans the whole of
    the non-empty array [a] and stores [a] in its leaves. *)
Definition models (a : list Z) (self : SegmentTree) : Prop :=
  a <> [] /\ invariant (root self)
  /\ covers (root self) 0 (Z.of_nat (length a) - 1)
  /\ leaves_hold (arr 0 a) (root self).

(** [Forall_nodes P o]: [P] holds of every node of [o]. *)
Fixpoint Forall_nodes (P : object -> Prop) (o : object) : Prop :=
  match o with
  | PyNone => True
  | TreeNode _ _ _ _ _ _ _ l r => P o /\ Forall_nodes P l /\ Forall_nodes P r
  end.

(** The [inorder_pos] attributes of the nodes, listed in in-order. *)
Fixpoint inorder_positions (o : object) : list (option Z) :=
  match o with
  | PyNone => []
  | TreeNode _ _ _ _ _ _ pos l r =>
      inorder_positions l ++ pos :: inorder_positions r
  end.

(** Attribute read [o.inorder_pos]. *)
Definition get_inorder_pos (o : object) : option Z :=
  match o with
  | PyNone => None
  | TreeNode _ _ _ _ _ _ pos _ _ => pos
  end.

(** The flags as [build_tree] sets them for [selected_idx = sel] and
    [branch_idx = br]: [is_selected] on the leaf of index [sel], [branch]
    on the nodes whose range contains [br]. *)
Definition flags_of (sel br : Z) (o : object) : Prop :=
  match o with
  | PyNone => True
  | TreeNode s e _ _ is_sel is_br _ _ _ =>
      is_sel = (s =? e) && (sel =? s)
      /\ is_br = (s <=? br) && (br <=? e)
  end.

(** The position a traversal from the root gives a node of a built tree:
    a leaf of index [i] lies at [2 * i], an internal node right after its
    left subtree, at [2 * mid + 1]. *)
Definition layout_pos (s e : Z) : Z :=
  if s =? e then 2 * s else 2 * ((s + e) / 2) + 1.

Definition laid_out (o : object) : Prop :=
  match o with
  | PyNone => True
  | TreeNode s e _ _ _ _ pos _ _ => pos = Some (layout_pos s e)
  end.

(** Kinds of plotting calls. *)
Definition is_scatter (c : plt_call) : bool :=
  match c with scatter _ _ => true | _ => false end.

Definition is_text (c : plt_call) : bool :=
  match c with text _ _ _ _ => true | _ => false end.

Definition is_plot (c : plt_call) : bool :=
  match c with plot _ _ _ _ _ => true | _ => false end.



(** What the block of [draw] for a child issues when it runs to its end:
    nothing for an absent child, else the edge to the child followed by
    the child's own drawing. *)
Definition child_calls (x y : Z) (child : object) : list plt_call :=
  match child with
  | PyNone => []
  | TreeNode _ _ _ _ _ child_branch child_pos _ _ =>
      match child_pos with
      | None => []
      | Some x_next =>
          plot x x_next y (y - 1) (if child_branch then lw_4 else lw_1_5)
            :: fst (TreeNode.draw child (y - 1))
      end
  end.

(** [joins_nodes calls c]: if [c] plots a line, the line goes one level
    down and both its ends are points that [calls] scatters. *)
Definition joins_nodes (calls : list plt_call) (c : plt_call) : Prop :=
  match c with
  | plot x x_next y y_next _ =>
      y_next = y - 1
      /\ In (scatter x y) calls /\ In (scatter x_next y_next) calls
  | _ => True
  end.

(** A tree that the public interface can produce: constructed, then
    updated any number of times at valid indices. *)
Definition reachable (st : SegmentTree) : Prop :=
  exists depth vals lbls sel br st0 calls,
    SegmentTree.init depth vals lbls sel br = Ok st0
    /\ Forall (valid_call (size st0)) calls
    /\ fst (updates st0 calls) = st.

(** ** Arithmetic and list facts *)

Lemma pick_max_max a b : pick_max a b = Z.max a b.
Proof.
  unfold pick_max. destruct (Z.gtb_spec a b); lia.
Qed.

Lemma mid_bounds s e : s < e -> s <= (s + e) / 2 < e.
Proof. intros H. split; [apply Z.div_le_lower_bound | apply Z.div_lt_upper_bound]; lia. Qed.

Lemma half_sizes s e p :
  s < e -> e - s + 1 <= 2 * p ->
  (s + e) / 2 - s + 1 <= p /\ e - ((s + e) / 2 + 1) + 1 <= p.
Proof.
  intros Hlt Hsz.
  assert (Hd : 2 * ((s + e) / 2) <= s + e < 2 * ((s + e) / 2) + 2).
  { pose proof (Z.div_mod (s + e) 2 ltac:(lia)).
    pose proof (Z.mod_pos_bound (s + e) 2 ltac:(lia)). lia. }
  lia.
Qed.

Lemma fold_max_cons t : forall x y,
  fold_left Z.max t (Z.max x y) = Z.max x (fold_left Z.max t y).
Proof.
  induction t as [|z t IH]; intros x y; simpl; [reflexivity|].
  rewrite <- Z.max_assoc. apply IH.
Qed.

Lemma lmax_cons x y t : lmax (x :: y :: t) = Z.max x (lmax (y :: t)).
Proof. simpl. apply fold_max_cons. Qed.

Lemma lmax_app l1 : forall l2,
  l1 <> [] -> l2 <> [] -> lmax (l1 ++ l2) = Z.max (lmax l1) (lmax l2).
Proof.
  induction l1 as [|x l1 IH]; intros l2 H1 H2; [congruence|].
  destruct l1 as [|y l1].
  - destruct l2 as [|z l2]; [congruence|]. apply lmax_cons.
  - change ((x :: y :: l1) ++ l2) with (x :: y :: (l1 ++ l2)).
    rewrite !lmax_cons.
    change (y :: l1 ++ l2) with ((y :: l1) ++ l2).
    rewrite IH by congruence. apply Z.max_assoc.
Qed.

Lemma cells_nonempty {A} (f : Z -> A) s k : cells f s k <> [].
Proof. destruct k; simpl; congruence. Qed.

Lemma cells_app {A} (f : Z -> A) a : forall s b,
  cells f s (a + S b) = cells f s a ++ cells f (s + Z.of_nat a + 1) b.
Proof.
  induction a as [|a IH]; intros s b.
  - simpl. now replace (s + 0 + 1) with (s + 1) by lia.
  - simpl. rewrite IH. do 3 f_equal. lia.
Qed.

Lemma seg_one {A} (f : Z -> A) s : seg f s s = [f s].
Proof. unfold seg. now rewrite Z.sub_diag. Qed.

Lemma seg_split {A} (f : Z -> A) s m e :
  s <= m < e -> seg f s e = seg f s m ++ seg f (m + 1) e.
Proof.
  intros H. unfold seg.
  replace (Z.to_nat (e - s)) with (Z.to_nat (m - s) + S (Z.to_nat (e - (m + 1))))%nat by lia.
  rewrite cells_app. do 2 f_equal. lia.
Qed.

Lemma seg_nonempty {A} (f : Z -> A) s e : seg f s e <> [].
Proof. apply cells_nonempty. Qed.

Lemma lmax_seg_split f s m e :
  s <= m < e -> lmax (seg f s e) = Z.max (lmax (seg f s m)) (lmax (seg f (m + 1) e)).
Proof.
  intros H. rewrite (seg_split f s m e H).
  apply lmax_app; apply seg_nonempty.
Qed.

Lemma py_max_lmax l : l <> [] -> py_max l = Some (lmax l).
Proof. destruct l; [congruence | reflexivity]. Qed.

Lemma skipn_nth {A} (d : A) (l : list A) : forall n,
  (n < length l)%nat -> skipn n l = nth n l d :: skipn (S n) l.
Proof.
  induction l as [|x l IH]; intros n H; simpl in H; [lia|].
  destruct n as [|n]; [reflexivity|].
  change (skipn (S n) (x :: l)) with (skipn n l).
  change (nth (S n) (x :: l) d) with (nth n l d).
  apply IH. lia.
Qed.

Lemma firstn_skipn_cells {A} (d : A) (l : list A) k : forall n,
  (n + k < length l)%nat ->
  firstn (S k) (skipn n l) = cells (arr d l) (Z.of_nat n) k.
Proof.
  induction k as [|k IH]; intros n H.
  - rewrite (skipn_nth d) by lia. simpl. unfold arr. now rewrite Nat2Z.id.
  - rewrite (skipn_nth d) by lia.
    change (firstn (S (S k)) (nth n l d :: skipn (S n) l))
      with (nth n l d :: firstn (S k) (skipn (S n) l)).
    rewrite IH by lia. simpl cells. unfold arr at 2. rewrite Nat2Z.id.
    do 2 f_equal. lia.
Qed.

Lemma slice_seg {A} (d : A) (l : list A) s e :
  0 <= s <= e -> e < Z.of_nat (length l) ->
  slice l s e = seg (arr d l) s e.
Proof.
  intros Hse He. unfold slice, seg.
  replace (Z.to_nat (e - s + 1)) with (S (Z.to_nat (e - s))) by lia.
  rewrite (firstn_skipn_cells d) by lia.
  f_equal. lia.
Qed.

Lemma slice_all {A} (l : list A) :
  slice l 0 (Z.of_nat (length l) - 1) = l.
Proof.
  unfold slice. simpl skipn.
  replace (Z.to_nat (Z.of_nat (length l) - 1 - 0 + 1)) with (length l) by lia.
  apply firstn_all.
Qed.

Lemma getitem_ok {A} (d : A) (l : list A) i :
  0 <= i < Z.of_nat (length l) -> getitem l i = Ok (arr d l i).
Proof.
  intros H. unfold getitem, arr.
  destruct (Z.ltb_spec i 0); [lia|].
  destruct (Z.leb_spec 0 i); [|lia].
  destruct (Z.ltb_spec i (Z.of_nat (length l))); [|lia].
  simpl. rewrite (nth_error_nth' l d) by lia. reflexivity.
Qed.

Lemma getitem_high {A} (l : list A) i :
  Z.of_nat (length l) <= i -> getitem l i = Raise IndexError.
Proof.
  intros H. unfold getitem.
  destruct (Z.ltb_spec i 0); [lia|].
  destruct (Z.ltb_spec i (Z.of_nat (length l))); [lia|].
  now rewrite andb_false_r.
Qed.

Lemma setitem_nat_length {A} (l : list A) : forall i v,
  length (setitem_nat l i v) = length l.
Proof.
  induction l as [|x l IH]; intros [|i] v; simpl; try reflexivity.
  now rewrite IH.
Qed.

Lemma setitem_length {A} (l : list A) i v :
  length (setitem l i v) = length l.
Proof. apply setitem_nat_length. Qed.

Lemma nth_setitem_nat {A} (d : A) (l : list A) : forall i v j,
  (i < length l)%nat ->
  nth j (setitem_nat l i v) d = if Nat.eqb j i then v else nth j l d.
Proof.
  induction l as [|x l IH]; intros i v j H; simpl in H; [lia|].
  destruct i as [|i], j as [|j]; simpl; try reflexivity.
  apply IH. lia.
Qed.

Lemma arr_setitem (l : list Z) idx v i :
  0 <= idx < Z.of_nat (length l) -> 0 <= i ->
  arr 0 (setitem l idx v) i = override (arr 0 l) idx v i.
Proof.
  intros Hidx Hi. unfold arr, setitem, override.
  rewrite nth_setitem_nat by lia.
  destruct (Nat.eqb_spec (Z.to_nat i) (Z.to_nat idx)), (Z.eqb_spec i idx);
    try reflexivity; lia.
Qed.

(** ** The invariant and what the tree stores *)

Lemma leaves_hold_ext o : invariant o -> forall f g s e,
  covers o s e -> (forall i, s <= i <= e -> f i = g i) ->
  leaves_hold f o -> leaves_hold g o.
Proof.
  induction 1 as [s0 lbl v0 sel br pos
                 |s0 e0 lbl sel br pos l r lv rv Hlt Hl IHl Hr IHr Hcl Hcr Hvl Hvr];
    intros f g s e Hcov Hfg Hleaf; simpl in Hcov; destruct Hcov as [<- <-].
  - simpl in *. destruct Hleaf as [Hv _]. repeat split; trivial.
    intros _. rewrite <- Hfg by lia. now apply Hv.
  - pose proof (mid_bounds s0 e0 Hlt) as Hm.
    simpl in *. destruct Hleaf as (_ & Hll & Hlr).
    split; [lia|]. split.
    + apply (IHl f g _ _ Hcl); [|exact Hll]. intros i Hi. apply Hfg. lia.
    + apply (IHr f g _ _ Hcr); [|exact Hlr]. intros i Hi. apply Hfg. lia.
Qed.

(** A node holds the maximum of the cells of its range. *)
Lemma node_value o : invariant o -> forall f s e,
  covers o s e -> leaves_hold f o ->
  get_value o = Ok (lmax (seg f s e)).
Proof.
  induction 1 as [s0 lbl v0 sel br pos
                 |s0 e0 lbl sel br pos l r lv rv Hlt Hl IHl Hr IHr Hcl Hcr Hvl Hvr];
    intros f s e Hcov Hleaf; simpl in Hcov; destruct Hcov as [<- <-].
  - simpl in *. destruct Hleaf as [Hv _]. rewrite seg_one. simpl.
    now rewrite Hv.
  - simpl in Hleaf. destruct Hleaf as (_ & Hll & Hlr).
    rewrite (IHl f _ _ Hcl Hll) in Hvl. rewrite (IHr f _ _ Hcr Hlr) in Hvr.
    injection Hvl as <-. injection Hvr as <-. simpl.
    now rewrite <- lmax_seg_split by (apply mid_bounds; exact Hlt).
Qed.

(** [query] returns the maximum of the cells of any range inside the
    node's own. *)
Lemma query_max o : invariant o -> forall f s e qs qe,
  covers o s e -> leaves_hold f o -> s <= qs -> qs <= qe -> qe <= e ->
  TreeNode.query o qs qe = Ok (lmax (seg f qs qe)).
Proof.
  induction 1 as [s0 lbl v0 sel br pos
                 |s0 e0 lbl sel br pos l r lv rv Hlt Hl IHl Hr IHr Hcl Hcr Hvl Hvr];
    intros f s e qs qe Hcov Hleaf H1 H2 H3;
    pose proof Hcov as Hcov'; simpl in Hcov'; destruct Hcov' as [<- <-].
  - assert (qs = s0) by lia. assert (qe = s0) by lia. subst qs qe.
    simpl. rewrite Z.eqb_refl. simpl.
    destruct Hleaf as [Hv _]. rewrite seg_one. simpl. now rewrite Hv.
  - pose proof (mid_bounds s0 e0 Hlt) as Hm.
    pose proof (node_value _ (inv_internal s0 e0 lbl sel br pos l r lv rv
                                Hlt Hl Hr Hcl Hcr Hvl Hvr) f _ _ Hcov Hleaf) as Hv.
    simpl in Hv. simpl in Hleaf. destruct Hleaf as (_ & Hll & Hlr).
    simpl.
    destruct (Z.eqb_spec s0 qs) as [<-|Hs];
      [destruct (Z.eqb_spec e0 qe) as [<-|He]|]; simpl.
    + exact Hv.
    + destruct (Z.leb_spec qe ((s0 + e0) / 2)).
      * apply (IHl f _ _ _ _ Hcl Hll); lia.
      * destruct (Z.gtb_spec s0 ((s0 + e0) / 2)); [lia|].
        rewrite (IHl f _ _ _ _ Hcl Hll) by lia.
        rewrite (IHr f _ _ _ _ Hcr Hlr) by lia.
        simpl. rewrite <- lmax_seg_split by lia. reflexivity.
    + destruct (Z.leb_spec qe ((s0 + e0) / 2)).
      * apply (IHl f _ _ _ _ Hcl Hll); lia.
      * destruct (Z.gtb_spec qs ((s0 + e0) / 2)).
        -- apply (IHr f _ _ _ _ Hcr Hlr); lia.
        -- rewrite (IHl f _ _ _ _ Hcl Hll) by lia.
           rewrite (IHr f _ _ _ _ Hcr Hlr) by lia.
           simpl. rewrite <- lmax_seg_split by lia. reflexivity.
Qed.

(** [update] at an index of the node's range succeeds, keeps the invariant
    and the range, and stores the new value in the cell [idx]. *)
Lemma update_spec o : invariant o -> forall f s e idx v,
  covers o s e -> leaves_hold f o -> s <= idx <= e ->
  exists o', TreeNode.update o idx v = (o', Ok tt)
             /\ invariant o' /\ covers o' s e
             /\ leaves_hold (override f idx v) o'.
Proof.
  induction 1 as [s0 lbl v0 sel br pos
                 |s0 e0 lbl sel br pos l r lv rv Hlt Hl IHl Hr IHr Hcl Hcr Hvl Hvr];
    intros f s e idx v Hcov Hleaf Hidx;
    pose proof Hcov as Hcov'; simpl in Hcov'; destruct Hcov' as [<- <-].
  - simpl. rewrite Z.eqb_refl. eexists. split; [reflexivity|].
    split; [constructor|]. split; [exact Hcov|].
    simpl. repeat split; trivial. intros _. unfold override.
    destruct (Z.eqb_spec s0 idx); [reflexivity | lia].
  - pose proof (mid_bounds s0 e0 Hlt) as Hm.
    simpl in Hleaf. destruct Hleaf as (_ & Hll & Hlr).
    simpl. destruct (Z.eqb_spec s0 e0); [lia|].
    destruct (Z.leb_spec idx ((s0 + e0) / 2)).
    + destruct (IHl f _ _ idx v Hcl Hll ltac:(lia)) as (l' & Hu & Hil & Hcl' & Hll').
      rewrite Hu.
      rewrite (node_value _ Hil _ _ _ Hcl' Hll'), Hvr.
      eexists. split; [reflexivity|]. rewrite pick_max_max.
      split; [|split; [exact Hcov|]].
      * apply inv_internal; trivial.
        apply (node_value _ Hil _ _ _ Hcl' Hll').
      * simpl. split; [lia|]. split; [exact Hll'|].
        apply (leaves_hold_ext _ Hr f _ _ _ Hcr); [|exact Hlr].
        intros i Hi. unfold override. destruct (Z.eqb_spec i idx); [lia | reflexivity].
    + destruct (IHr f _ _ idx v Hcr Hlr ltac:(lia)) as (r' & Hu & Hir & Hcr' & Hlr').
      rewrite Hu.
      rewrite (node_value _ Hir _ _ _ Hcr' Hlr'), Hvl.
      eexists. split; [reflexivity|]. rewrite pick_max_max.
      split; [|split; [exact Hcov|]].
      * apply inv_internal; trivial.
        apply (node_value _ Hir _ _ _ Hcr' Hlr').
      * simpl. split; [lia|]. split; [|exact Hlr'].
        apply (leaves_hold_ext _ Hl f _ _ _ Hcl); [|exact Hll].
        intros i Hi. unfold override. destruct (Z.eqb_spec i idx); [lia | reflexivity].
Qed.




(** ** [update] touches the path only *)

Lemma update_node s e lbl v0 sel br pos l r idx v :
  exists v',
    fst (TreeNode.update (TreeNode s e lbl v0 sel br pos l r) idx v) =
    TreeNode s e lbl v' sel br pos
      (if s =? e then l
       else if idx <=? (s + e) / 2 then fst (TreeNode.update l idx v) else l)
      (if s =? e then r
       else if idx <=? (s + e) / 2 then r else fst (TreeNode.update r idx v)).
Proof.
  simpl. destruct (s =? e); [eexists; reflexivity|].
  destruct (idx <=? (s + e) / 2).
  - destruct (TreeNode.update l idx v) as [l' [[]|x]]; simpl;
      [destruct (get_value l'), (get_value r)|]; eexists; reflexivity.
  - destruct (TreeNode.update r idx v) as [r' [[]|x]]; simpl;
      [destruct (get_value l), (get_value r')|]; eexists; reflexivity.
Qed.


Lemma update_forget_values o : forall idx v,
  forget_values (fst (TreeNode.update o idx v)) = forget_values o.
Proof.
  induction o as [|s e lbl v0 sel br pos l IHl r IHr]; intros idx v.
  - reflexivity.
  - destruct (update_node s e lbl v0 sel br pos l r idx v) as [v' ->].
    simpl. destruct (s =? e); [reflexivity|].
    destruct (idx <=? (s + e) / 2); now rewrite ?IHl, ?IHr.
Qed.


(** ** The traversal *)

Lemma intersperse_cons2 {A} (sep x y : A) t :
  intersperse sep (x :: y :: t) = x :: sep :: intersperse sep (y :: t).
Proof. reflexivity. Qed.

Lemma intersperse_app {A} (sep : A) l1 : forall l2,
  l1 <> [] -> l2 <> [] ->
  intersperse sep (l1 ++ l2) = intersperse sep l1 ++ sep :: intersperse sep l2.
Proof.
  induction l1 as [|x l1 IH]; intros l2 H1 H2; [congruence|].
  destruct l1 as [|y l1].
  - destruct l2; [congruence | reflexivity].
  - change ((x :: y :: l1) ++ l2) with (x :: y :: (l1 ++ l2)).
    rewrite !intersperse_cons2.
    change (y :: l1 ++ l2) with ((y :: l1) ++ l2).
    rewrite IH by congruence. reflexivity.
Qed.

Lemma intersperse_length {A} (sep : A) l :
  l <> [] ->
  Z.of_nat (length (intersperse sep l)) = 2 * Z.of_nat (length l) - 1.
Proof.
  induction l as [|x l IH]; intros H; [congruence|].
  destruct l as [|y l]; [reflexivity|].
  rewrite intersperse_cons2.
  change (length (x :: sep :: intersperse sep (y :: l)))
    with (S (S (length (intersperse sep (y :: l))))).
  change (length (x :: y :: l)) with (S (length (y :: l))).
  rewrite !Nat2Z.inj_succ, IH by congruence. lia.
Qed.

Lemma filter_intersperse l :
  Forall (fun s => nonempty s = true) l ->
  filter nonempty (intersperse EmptyString l) = l.
Proof.
  induction 1 as [|x l Hx Hl IH]; [reflexivity|].
  destruct l as [|y l]; [simpl; now rewrite Hx|].
  rewrite intersperse_cons2. cbn [filter nonempty]. rewrite Hx.
  f_equal. exact IH.
Qed.

Lemma positioned_count o : forall n, node_count (positioned o n) = node_count o.
Proof.
  induction o as [|s e lbl v sel br pos l IHl r IHr]; intros n; simpl;
    [reflexivity|]. now rewrite IHl, IHr.
Qed.

Lemma positioned_keys o : forall n, keys (positioned o n) = keys o.
Proof.
  induction o as [|s e lbl v sel br pos l IHl r IHr]; intros n; simpl;
    [reflexivity|]. now rewrite IHl, IHr.
Qed.

Lemma positioned_again o : forall n m,
  positioned (positioned o n) m = positioned o m.
Proof.
  induction o as [|s e lbl v sel br pos l IHl r IHr]; intros n m; simpl;
    [reflexivity|]. now rewrite positioned_count, IHl, IHr.
Qed.

Lemma positioned_forget o : forall n, forget_pos (positioned o n) = forget_pos o.
Proof.
  induction o as [|s e lbl v sel br pos l IHl r IHr]; intros n; simpl;
    [reflexivity|]. now rewrite IHl, IHr.
Qed.

(** [inorder] numbers the nodes from [num] on and appends their labels. *)
Lemma inorder_spec o : forall num key_list,
  TreeNode.inorder o num key_list =
  (positioned o num, num + node_count o, key_list ++ keys o).
Proof.
  induction o as [|s e lbl v sel br pos l IHl r IHr]; intros num key_list; simpl.
  - now rewrite Z.add_0_r, app_nil_r.
  - rewrite IHl, IHr. f_equal; [f_equal; lia|].
    now rewrite <- !app_assoc.
Qed.

(** ** Construction *)

Section BuildFacts.
Variable vals : list Z.
Variable lbls : list string.
Variables sel br : Z.

Lemma build_tree_eq d s e :
  SegmentTree.build_tree vals lbls sel br (S d) s e =
  if s =? e then
    label <- getitem lbls s ;;
    v <- getitem vals s ;;
    Ok (TreeNode s e label v (sel =? s) (br =? s) None PyNone PyNone)
  else
    l <- SegmentTree.build_tree vals lbls sel br d s ((s + e) / 2) ;;
    r <- SegmentTree.build_tree vals lbls sel br d ((s + e) / 2 + 1) e ;;
    lv <- get_value l ;;
    rv <- get_value r ;;
    rb <- get_branch r ;;
    lb <- get_branch l ;;
    Ok (TreeNode s e EmptyString (pick_max lv rv) false (rb || lb) None l r).
Proof. reflexivity. Qed.

Lemma getitem_inv {A} (d : A) (l : list A) i x :
  0 <= i -> getitem l i = Ok x ->
  i < Z.of_nat (length l) /\ x = arr d l i.
Proof.
  intros Hi H. destruct (Z_lt_le_dec i (Z.of_nat (length l))) as [Hlt|Hge].
  - rewrite (getitem_ok d) in H by lia. split; congruence.
  - rewrite getitem_high in H by lia. discriminate.
Qed.

(** Whatever [build_tree] returns is a tree over [[s, e]] that satisfies
    the invariant, stores the values in its leaves and lists the labels,
    separated by the empty labels of the internal nodes, in in-order. *)
Lemma build_tree_sound d : forall s e o,
  0 <= s -> SegmentTree.build_tree vals lbls sel br d s e = Ok o ->
  s <= e /\ e < Z.of_nat (length vals) /\ e < Z.of_nat (length lbls)
  /\ invariant o /\ covers o s e /\ leaves_hold (arr 0 vals) o
  /\ keys o = intersperse EmptyString (seg (arr EmptyString lbls) s e).
Proof.
  induction d as [|d IH]; intros s e o Hs H; [discriminate|].
  rewrite build_tree_eq in H. destruct (Z.eqb_spec s e) as [<-|Hne].
  - destruct (getitem lbls s) as [lab|] eqn:El; simpl in H; [|discriminate].
    destruct (getitem vals s) as [v|] eqn:Ev; simpl in H; [|discriminate].
    injection H as <-.
    destruct (getitem_inv EmptyString _ _ _ Hs El) as [Hl ->].
    destruct (getitem_inv 0 _ _ _ Hs Ev) as [Hv ->].
    repeat split; try lia; try constructor; trivial.
    simpl. now rewrite seg_one.
  - destruct (SegmentTree.build_tree vals lbls sel br d s ((s + e) / 2)) as [l|] eqn:Bl; simpl in H; [|discriminate].
    destruct (IH _ _ _ Hs Bl) as (Hl1 & Hl2 & Hl3 & Hil & Hcl & Hll & Hkl).
    destruct (SegmentTree.build_tree vals lbls sel br d ((s + e) / 2 + 1) e) as [r|] eqn:Br; simpl in H; [|discriminate].
    assert (Hs' : 0 <= (s + e) / 2 + 1) by lia.
    destruct (IH _ _ _ Hs' Br) as (Hr1 & Hr2 & Hr3 & Hir & Hcr & Hlr & Hkr).
    destruct l as [|ls le llbl lv lsel lbr lpos ll lr]; [contradiction|].
    destruct r as [|rs re rlbl rv rsel rbr rpos rl rr]; [contradiction|].
    simpl in H. injection H as <-. rewrite pick_max_max.
    assert (Hlt : s < e) by lia.
    split; [lia|]. split; [lia|]. split; [lia|].
    split; [apply inv_internal; trivial|].
    split; [simpl; tauto|].
    split; [split; [lia | split; assumption]|].
    change (keys (TreeNode s e EmptyString (Z.max lv rv) false (rbr || lbr) None
                      (TreeNode ls le llbl lv lsel lbr lpos ll lr)
                      (TreeNode rs re rlbl rv rsel rbr rpos rl rr)))
        with (keys (TreeNode ls le llbl lv lsel lbr lpos ll lr) ++
              EmptyString :: keys (TreeNode rs re rlbl rv rsel rbr rpos rl rr)).
    rewrite Hkl, Hkr, (seg_split _ s ((s + e) / 2) e) by (apply mid_bounds; lia).
    symmetry. apply intersperse_app; apply seg_nonempty.
Qed.

Lemma build_tree_leaf d s :
  0 <= s < Z.of_nat (length vals) -> s < Z.of_nat (length lbls) ->
  exists o, SegmentTree.build_tree vals lbls sel br (S d) s s = Ok o.
Proof.
  intros Hv Hl. rewrite build_tree_eq, Z.eqb_refl.
  rewrite (getitem_ok EmptyString), (getitem_ok 0) by lia.
  eexists. reflexivity.
Qed.

(** A recursion allowance of [k + 1] nested calls is enough for a range of
    at most [2 ^ k] cells. *)
Lemma build_tree_total k : forall s e,
  0 <= s <= e -> e < Z.of_nat (length vals) -> e < Z.of_nat (length lbls) ->
  e - s + 1 <= 2 ^ Z.of_nat k ->
  exists o, SegmentTree.build_tree vals lbls sel br (S k) s e = Ok o.
Proof.
  induction k as [|k IH]; intros s e Hse Hv Hl Hsz.
  - assert (s = e) by (simpl in Hsz; lia). subst e.
    apply build_tree_leaf; lia.
  - destruct (Z.eq_dec s e) as [<-|Hne]; [apply build_tree_leaf; lia|].
    rewrite Nat2Z.inj_succ, Z.pow_succ_r in Hsz by lia.
    pose proof (mid_bounds s e ltac:(lia)) as Hm.
    destruct (half_sizes s e _ ltac:(lia) Hsz) as [Hsl Hsr].
    destruct (IH s ((s + e) / 2)) as [l Bl]; try lia.
    destruct (IH ((s + e) / 2 + 1) e) as [r Br]; try lia.
    rewrite build_tree_eq. destruct (Z.eqb_spec s e); [lia|].
    rewrite Bl, Br.
    assert (Hs : 0 <= s) by lia. assert (Hs' : 0 <= (s + e) / 2 + 1) by lia.
    destruct (build_tree_sound _ _ _ _ Hs Bl) as (_ & _ & _ & _ & Hcl & _).
    destruct (build_tree_sound _ _ _ _ Hs' Br) as (_ & _ & _ & _ & Hcr & _).
    destruct l; [contradiction|]. destruct r; [contradiction|].
    eexists. reflexivity.
Qed.



End BuildFacts.

(** ** The tree as a whole *)

Lemma scenario_tree_built :
  SegmentTree.init 5 scenario_values scenario_labels
                   SegmentTree.no_idx SegmentTree.no_idx = Ok scenario_tree.
Proof. reflexivity. Qed.

Lemma init_sound depth vals lbls sel br st :
  SegmentTree.init depth vals lbls sel br = Ok st ->
  values st = vals /\ labels st = lbls
  /\ Z.of_nat (length vals) <= Z.of_nat (length lbls)
  /\ models vals st
  /\ keys (root st) =
     intersperse EmptyString
       (seg (arr EmptyString lbls) 0 (Z.of_nat (length vals) - 1)).
Proof.
  unfold SegmentTree.init. intros H.
  destruct (SegmentTree.build_tree vals lbls sel br depth 0
              (Z.of_nat (length vals) - 1)) as [o|] eqn:B; [|discriminate].
  simpl in H. injection H as <-. simpl.
  destruct (build_tree_sound _ _ _ _ _ _ _ _ (Z.le_refl 0) B)
    as (H1 & H2 & H3 & Hi & Hc & Hl & Hk).
  repeat split; trivial; try lia.
  intros ->. simpl in H1. lia.
Qed.

Lemma init_total depth vals lbls sel br :
  vals <> [] -> Z.of_nat (length vals) <= Z.of_nat (length lbls) ->
  Z.of_nat (length vals) <= 2 ^ (Z.of_nat depth - 1) ->
  exists st, SegmentTree.init depth vals lbls sel br = Ok st.
Proof.
  intros Hne Hlen Hd.
  assert (Hn : 1 <= Z.of_nat (length vals)).
  { destruct vals; [congruence | simpl length; lia]. }
  destruct depth as [|k].
  - simpl in Hd. lia.
  - replace (Z.of_nat (S k) - 1) with (Z.of_nat k) in Hd by lia.
    unfold SegmentTree.init.
    destruct (build_tree_total vals lbls sel br k 0 (Z.of_nat (length vals) - 1))
      as [o ->]; try lia.
    eexists. reflexivity.
Qed.

Lemma query_models a st s e :
  models a st -> 0 <= s -> s <= e -> e < Z.of_nat (length a) ->
  SegmentTree.query st s e = Ok (lmax (slice a s e)).
Proof.
  intros (Hne & Hi & Hc & Hl) H1 H2 H3. unfold SegmentTree.query.
  rewrite (slice_seg 0) by lia.
  apply (query_max _ Hi _ _ _ _ _ Hc Hl); lia.
Qed.

Lemma update_models a st idx v :
  models a st -> 0 <= idx < Z.of_nat (length a) ->
  exists st', SegmentTree.update st idx v = (st', Ok tt)
              /\ models (setitem a idx v) st'.
Proof.
  intros (Hne & Hi & Hc & Hl) Hidx. unfold SegmentTree.update.
  destruct (update_spec _ Hi _ _ _ idx v Hc Hl ltac:(lia))
    as (o' & Hu & Hi' & Hc' & Hl').
  rewrite Hu. eexists. split; [reflexivity|].
  unfold models. simpl root. rewrite setitem_length.
  split; [|split; [exact Hi'|split; [exact Hc'|]]].
  - intros E. apply (f_equal (@length Z)) in E.
    rewrite setitem_length in E. destruct a; [congruence | discriminate].
  - apply (leaves_hold_ext _ Hi' (override (arr 0 a) idx v) _ _ _ Hc');
      [|exact Hl'].
    intros i Hi0. symmetry. apply arr_setitem; lia.
Qed.

Lemma assignments_length calls : forall a,
  length (assignments a calls) = length a.
Proof.
  induction calls as [|[idx v] calls IH]; intros a; simpl; [reflexivity|].
  now rewrite IH, setitem_length.
Qed.

Lemma updates_models calls : forall a st,
  models a st -> Forall (valid_call (Z.of_nat (length a))) calls ->
  exists st', updates st calls = (st', Ok tt)
              /\ models (assignments a calls) st'.
Proof.
  induction calls as [|[idx v] calls IH]; intros a st Hm Hcalls; simpl.
  - eexists. split; [reflexivity | exact Hm].
  - inversion Hcalls as [|c cs Hc Hcs]; subst. unfold valid_call in Hc. simpl in Hc.
    destruct (update_models a st idx v Hm Hc) as (st1 & -> & Hm1).
    apply IH; [exact Hm1|]. now rewrite setitem_length.
Qed.

Lemma inorder_keys st : snd (SegmentTree.inorder st) = keys (root st).
Proof.
  unfold SegmentTree.inorder. destruct (root st) eqn:E; [reflexivity|].
  rewrite inorder_spec. reflexivity.
Qed.

Lemma inorder_root st :
  fst (SegmentTree.inorder st) =
  mkSegmentTree (values st) (labels st) (selected_idx st) (branch_idx st)
                (positioned (root st) 0).
Proof.
  unfold SegmentTree.inorder. destruct st as [a b c d r].
  cbn [root values labels selected_idx branch_idx].
  destruct r; [reflexivity|]. rewrite inorder_spec. reflexivity.
Qed.

Lemma update_root st idx v :
  root (fst (SegmentTree.update st idx v)) =
  fst (TreeNode.update (root st) idx v).
Proof.
  unfold SegmentTree.update. now destruct (TreeNode.update (root st) idx v).
Qed.

Lemma slice_nonempty {A} (l : list A) s e :
  0 <= s <= e -> e < Z.of_nat (length l) -> l <> [] -> slice l s e <> [].
Proof.
  intros Hse He Hne. destruct l as [|d l]; [congruence|].
  rewrite (slice_seg d) by lia. apply seg_nonempty.
Qed.

(** ** Properties of the specification *)

(** C1 (build correctness).  For every non-empty array [vals] with a
    parallel list of labels, constructing the tree (within a recursion
    allowance of [depth] nested calls, enough when
    [len(vals) <= 2 ^ (depth - 1)]) succeeds, and querying the full range
    [[0, len(vals) - 1]] returns [max(vals)]. *)
Theorem build_then_full_query_is_max depth vals lbls sel br :
  vals <> [] ->
  length lbls = length vals ->
  Z.of_nat (length vals) <= 2 ^ (Z.of_nat depth - 1) ->
  exists st m,
    SegmentTree.init depth vals lbls sel br = Ok st
    /\ py_max vals = Some m
    /\ SegmentTree.query st 0 (Z.of_nat (length vals) - 1) = Ok m.
Proof.
  intros Hne Hlen Hd.
  destruct (init_total depth vals lbls sel br Hne ltac:(lia) Hd) as [st Hst].
  destruct (init_sound _ _ _ _ _ _ Hst) as (_ & _ & _ & Hm & _).
  assert (Hn : 1 <= Z.of_nat (length vals)).
  { destruct vals; [congruence | simpl length; lia]. }
  exists st, (lmax vals). split; [exact Hst|]. split.
  - now apply py_max_lmax.
  - rewrite (query_models vals) by (trivial; lia).
    now rewrite slice_all.
Qed.

Lemma build_then_full_query_is_max_witness :
  scenario_values <> []
  /\ length scenario_labels = length scenario_values
  /\ Z.of_nat (length scenario_values) <= 2 ^ (Z.of_nat 5 - 1)
  /\ exists st m,
       SegmentTree.init 5 scenario_values scenario_labels (-1) (-1) = Ok st
       /\ py_max scenario_values = Some m
       /\ SegmentTree.query st 0 (Z.of_nat (length scenario_values) - 1) = Ok m.
Proof.
  split; [discriminate|]. split; [reflexivity|].
  split; [vm_compute; discriminate|].
  apply (build_then_full_query_is_max 5 scenario_values scenario_labels (-1) (-1));
    [discriminate | reflexivity | vm_compute; discriminate].
Defined.

(** C2 (update correctness).  On a tree built from [vals], [update(idx, v)]
    at a valid index succeeds; afterwards [query(idx, idx)] is [v], and for
    every valid range [[s, e]] containing [idx], [query(s, e)] is the
    maximum of [vals[s..e]] with [vals[idx]] replaced by [v]. *)
Theorem update_then_query_is_max depth vals lbls sel br st idx v :
  SegmentTree.init depth vals lbls sel br = Ok st ->
  0 <= idx < Z.of_nat (length vals) ->
  exists st',
    SegmentTree.update st idx v = (st', Ok tt)
    /\ SegmentTree.query st' idx idx = Ok v
    /\ forall s e,
         0 <= s <= idx -> idx <= e < Z.of_nat (length vals) ->
         exists m, py_max (slice (setitem vals idx v) s e) = Some m
                   /\ SegmentTree.query st' s e = Ok m.
Proof.
  intros Hst Hidx.
  destruct (init_sound _ _ _ _ _ _ Hst) as (_ & _ & _ & Hm & _).
  destruct (update_models vals st idx v Hm Hidx) as (st' & Hu & Hm').
  exists st'. split; [exact Hu|].
  pose proof (setitem_length vals idx v) as Hlen.
  split.
  - rewrite (query_models _ _ _ _ Hm') by (rewrite ?Hlen; lia).
    rewrite (slice_seg 0) by (rewrite ?Hlen; lia).
    rewrite seg_one, arr_setitem by lia. simpl. unfold override.
    now rewrite Z.eqb_refl.
  - intros s e Hs He. exists (lmax (slice (setitem vals idx v) s e)). split.
    + apply py_max_lmax, slice_nonempty; rewrite ?Hlen; try lia.
      apply Hm'.
    + apply (query_models _ _ _ _ Hm'); rewrite ?Hlen; lia.
Qed.

Lemma update_then_query_is_max_witness :
  SegmentTree.init 5 scenario_values scenario_labels (-1) (-1) = Ok scenario_tree
  /\ 0 <= 5 < Z.of_nat (length scenario_values)
  /\ exists st',
       SegmentTree.update scenario_tree 5 200 = (st', Ok tt)
       /\ SegmentTree.query st' 5 5 = Ok 200
       /\ forall s e,
            0 <= s <= 5 -> 5 <= e < Z.of_nat (length scenario_values) ->
            exists m, py_max (slice (setitem scenario_values 5 200) s e) = Some m
                      /\ SegmentTree.query st' s e = Ok m.
Proof.
  split; [reflexivity|]. split; [simpl; lia|].
  apply (update_then_query_is_max 5 scenario_values scenario_labels (-1) (-1)
           scenario_tree 5 200); [reflexivity | simpl; lia].
Defined.

(** C3 (invariant).  In the tree that construction returns, and in the
    tree after any sequence of [update] calls at valid indices (all of
    which succeed), every node satisfies [invariant]: an internal node
    holds the maximum of its children's values, its left child covers
    [[start, mid]] and its right child [[mid+1, end]] with
    [mid = (start + end) / 2] rounded down, and a leaf has
    [start = end]; the root covers [[0, size - 1]]. *)
Theorem invariant_after_updates depth vals lbls sel br st calls :
  SegmentTree.init depth vals lbls sel br = Ok st ->
  Forall (valid_call (size st)) calls ->
  exists st',
    updates st calls = (st', Ok tt)
    /\ invariant (root st')
    /\ covers (root st') 0 (size st - 1).
Proof.
  intros Hst Hcalls.
  destruct (init_sound _ _ _ _ _ _ Hst) as (Hv & _ & _ & Hm & _).
  unfold size in *. rewrite Hv in *.
  destruct (updates_models calls vals st Hm Hcalls) as (st' & Hu & Hm').
  exists st'. split; [exact Hu|].
  destruct Hm' as (_ & Hi & Hc & _).
  rewrite assignments_length in Hc. split; assumption.
Qed.

Lemma invariant_after_updates_witness :
  SegmentTree.init 5 scenario_values scenario_labels (-1) (-1) = Ok scenario_tree
  /\ Forall (valid_call (size scenario_tree)) [(5, 200); (0, -3); (9, 7)]
  /\ exists st',
       updates scenario_tree [(5, 200); (0, -3); (9, 7)] = (st', Ok tt)
       /\ invariant (root st')
       /\ covers (root st') 0 (size scenario_tree - 1).
Proof.
  assert (Hc : Forall (valid_call (size scenario_tree)) [(5, 200); (0, -3); (9, 7)]).
  { repeat constructor; vm_compute; discriminate. }
  split; [reflexivity|]. split; [exact Hc|].
  apply (invariant_after_updates 5 scenario_values scenario_labels (-1) (-1)
           scenario_tree [(5, 200); (0, -3); (9, 7)]); [reflexivity | exact Hc].
Defined.









(** C7 (range decomposition).  On a built tree, also after any sequence of
    valid updates, for every range [[s, e]] within [[0, size - 1]] and
    every split point [s <= m < e], the three queries succeed and
    [query(s, e) = max(query(s, m), query(m + 1, e))]. *)
Theorem query_range_decomposition depth vals lbls sel br st0 calls st s m e :
  SegmentTree.init depth vals lbls sel br = Ok st0 ->
  Forall (valid_call (size st0)) calls ->
  fst (updates st0 calls) = st ->
  0 <= s -> s <= m -> m < e -> e < size st0 ->
  exists a b,
    SegmentTree.query st s m = Ok a
    /\ SegmentTree.query st (m + 1) e = Ok b
    /\ SegmentTree.query st s e = Ok (Z.max a b).
Proof.
  intros Hst Hcalls Hfst H1 H2 H3 H4.
  destruct (init_sound _ _ _ _ _ _ Hst) as (Hv & _ & _ & Hm & _).
  unfold size in *. rewrite Hv in *.
  destruct (updates_models calls vals st0 Hm Hcalls) as (st' & Hu & Hm').
  rewrite Hu in Hfst. simpl in Hfst. subst st'.
  destruct Hm' as (_ & Hi & Hc & Hl). rewrite assignments_length in Hc.
  set (f := arr 0 (assignments vals calls)) in *.
  exists (lmax (seg f s m)), (lmax (seg f (m + 1) e)).
  unfold SegmentTree.query.
  rewrite !(query_max _ Hi f _ _ _ _ Hc Hl) by lia.
  repeat split. now rewrite <- lmax_seg_split by lia.
Qed.

Lemma query_range_decomposition_witness :
  SegmentTree.init 5 scenario_values scenario_labels (-1) (-1) = Ok scenario_tree
  /\ Forall (valid_call (size scenario_tree)) [(5, 200)]
  /\ exists a b,
       SegmentTree.query (fst (updates scenario_tree [(5, 200)])) 2 4 = Ok a
       /\ SegmentTree.query (fst (updates scenario_tree [(5, 200)])) (4 + 1) 8 = Ok b
       /\ SegmentTree.query (fst (updates scenario_tree [(5, 200)])) 2 8
          = Ok (Z.max a b).
Proof.
  assert (Hc : Forall (valid_call (size scenario_tree)) [(5, 200)]).
  { repeat constructor; vm_compute; discriminate. }
  split; [reflexivity|]. split; [exact Hc|].
  apply (query_range_decomposition 5 scenario_values scenario_labels (-1) (-1)
           scenario_tree [(5, 200)] _ 2 4 8);
    [reflexivity | exact Hc | reflexivity | | | | ];
    vm_compute; (discriminate || reflexivity).
Defined.

(** C8 (idempotent traversal).  For every tree, a second traversal right
    after the first returns the same list of labels and leaves the same
    tree, that is the same assigned positions; and the tree after a
    traversal differs from the tree before it in the positions only, so
    no value has changed. *)
Theorem traversal_idempotent st :
  let st1 := fst (SegmentTree.inorder st) in
  snd (SegmentTree.inorder st1) = snd (SegmentTree.inorder st)
  /\ fst (SegmentTree.inorder st1) = st1
  /\ forget_pos (root st1) = forget_pos (root st)
  /\ values st1 = values st /\ labels st1 = labels st.
Proof.
  intros st1. subst st1.
  rewrite !inorder_keys, !inorder_root. cbn [root values labels selected_idx branch_idx].
  rewrite positioned_keys, positioned_again, positioned_forget.
  repeat split.
Qed.

(** C9 (termination).  On valid input every operation returns: building a
    tree from a non-empty array with a parallel list of labels returns a
    tree as soon as the recursion allowance [depth] satisfies
    [len(vals) <= 2 ^ (depth - 1)]; on that tree [update] at an index of
    [[0, size - 1]] returns without raising, and [query] on a range
    [0 <= start <= end <= size - 1] returns a value. *)
Theorem operations_return_on_valid_input depth vals lbls sel br :
  vals <> [] ->
  length lbls = length vals ->
  Z.of_nat (length vals) <= 2 ^ (Z.of_nat depth - 1) ->
  exists st,
    SegmentTree.init depth vals lbls sel br = Ok st
    /\ (forall idx v, 0 <= idx <= size st - 1 ->
          exists st', SegmentTree.update st idx v = (st', Ok tt))
    /\ (forall qs qe, 0 <= qs -> qs <= qe -> qe <= size st - 1 ->
          exists m, SegmentTree.query st qs qe = Ok m).
Proof.
  intros Hne Hlen Hd.
  destruct (init_total depth vals lbls sel br Hne ltac:(lia) Hd) as [st Hst].
  destruct (init_sound _ _ _ _ _ _ Hst) as (Hv & _ & _ & Hm & _).
  exists st. unfold size. rewrite Hv. split; [exact Hst|]. split.
  - intros idx v Hidx.
    destruct (update_models vals st idx v Hm ltac:(lia)) as (st' & Hu & _).
    now exists st'.
  - intros qs qe H1 H2 H3. eexists.
    apply (query_models vals); trivial; lia.
Qed.

Lemma operations_return_on_valid_input_witness :
  scenario_values <> []
  /\ length scenario_labels = length scenario_values
  /\ Z.of_nat (length scenario_values) <= 2 ^ (Z.of_nat 5 - 1)
  /\ exists st,
       SegmentTree.init 5 scenario_values scenario_labels (-1) (-1) = Ok st
       /\ (forall idx v, 0 <= idx <= size st - 1 ->
             exists st', SegmentTree.update st idx v = (st', Ok tt))
       /\ (forall qs qe, 0 <= qs -> qs <= qe -> qe <= size st - 1 ->
             exists m, SegmentTree.query st qs qe = Ok m).
Proof.
  split; [discriminate|]. split; [reflexivity|].
  split; [vm_compute; discriminate|].
  apply (operations_return_on_valid_input 5 scenario_values scenario_labels (-1) (-1));
    [discriminate | reflexivity | vm_compute; discriminate].
Defined.

(** C10, as the claim states it, fails when an input label is the empty
    string: with values [1, 2], an empty first label and the second label
    ["b"], the traversal returns two empty entries followed by ["b"]; its
    non-empty entries are not the two input labels. *)
Lemma empty_label_is_not_recovered :
  exists st,
    SegmentTree.init 2 [1; 2] [EmptyString; "b"%string] (-1) (-1) = Ok st
    /\ snd (SegmentTree.inorder st) = [EmptyString; EmptyString; "b"%string]
    /\ filter nonempty (snd (SegmentTree.inorder st)) = ["b"]%string
    /\ filter nonempty (snd (SegmentTree.inorder st)) <> [EmptyString; "b"%string].
Proof.
  eexists. split; [reflexivity|]. repeat split. discriminate.
Qed.

(** C10, amended.  For a tree built from [n] values and [n] labels, the
    traversal returns the input labels in increasing leaf order with one
    empty-string entry, that of an internal node, between consecutive
    ones: [2 * n - 1] entries.  When no input label is the empty string,
    the non-empty entries are exactly the input labels, in order. *)
Theorem traversal_lists_labels depth vals lbls sel br st :
  SegmentTree.init depth vals lbls sel br = Ok st ->
  length lbls = length vals ->
  let key_list := snd (SegmentTree.inorder st) in
  key_list = intersperse EmptyString lbls
  /\ Z.of_nat (length key_list) = 2 * size st - 1
  /\ (Forall (fun l => nonempty l = true) lbls ->
      filter nonempty key_list = lbls).
Proof.
  intros Hst Hlen key_list. subst key_list.
  destruct (init_sound _ _ _ _ _ _ Hst) as (Hv & _ & _ & Hm & Hk).
  destruct Hm as (Hne & _).
  assert (Hn : 1 <= Z.of_nat (length vals)).
  { destruct vals; [congruence | simpl length; lia]. }
  assert (Hl : lbls <> []).
  { intros ->. simpl in Hlen. lia. }
  rewrite inorder_keys, Hk.
  rewrite <- (slice_seg EmptyString) by lia.
  rewrite <- Hlen, slice_all.
  split; [reflexivity|]. split.
  - rewrite intersperse_length by exact Hl. unfold size. rewrite Hv. lia.
  - apply filter_intersperse.
Qed.

Lemma traversal_lists_labels_witness :
  SegmentTree.init 5 scenario_values scenario_labels (-1) (-1) = Ok scenario_tree
  /\ length scenario_labels = length scenario_values
  /\ snd (SegmentTree.inorder scenario_tree) = intersperse EmptyString scenario_labels.
Proof.
  split; [reflexivity|]. split; [reflexivity|].
  apply (traversal_lists_labels 5 scenario_values scenario_labels (-1) (-1)
           scenario_tree); reflexivity.
Defined.

(** ** Further properties of the code *)

Lemma Forall_nodes_subtree (P : object -> Prop) o : Forall_nodes P o ->
  forall p, subtree o p <> PyNone -> P (subtree o p).
Proof.
  induction o as [|s e lbl v sel br pos l IHl r IHr]; intros H p Hp.
  - destruct p; simpl in Hp; congruence.
  - destruct H as (Ho & Hl & Hr).
    destruct p as [|[|] p]; simpl in *; [exact Ho | now apply IHl | now apply IHr].
Qed.


Section BuildMore.
Variable vals : list Z.
Variable lbls : list string.
Variables sel br : Z.

(** [build_tree] sets the flags as [flags_of] says and creates no
    [inorder_pos]. *)
Lemma build_tree_flags d : forall s e o,
  SegmentTree.build_tree vals lbls sel br d s e = Ok o ->
  covers o s e /\ s <= e
  /\ Forall_nodes (fun x => flags_of sel br x /\ get_inorder_pos x = None) o.
Proof.
  induction d as [|d IH]; intros s e o H; [discriminate|].
  rewrite build_tree_eq in H. destruct (Z.eqb_spec s e) as [<-|Hne].
  - destruct (getitem lbls s) as [lab|]; simpl in H; [|discriminate].
    destruct (getitem vals s) as [v|]; simpl in H; [|discriminate].
    injection H as <-. simpl. rewrite Z.eqb_refl. simpl.
    repeat split; trivial; lia.
  - destruct (SegmentTree.build_tree vals lbls sel br d s ((s + e) / 2))
      as [l|] eqn:Bl; simpl in H; [|discriminate].
    destruct (IH _ _ _ Bl) as (Hcl & Hsl & Hfl).
    destruct (SegmentTree.build_tree vals lbls sel br d ((s + e) / 2 + 1) e)
      as [r|] eqn:Br; simpl in H; [|discriminate].
    destruct (IH _ _ _ Br) as (Hcr & Hsr & Hfr).
    destruct l as [|ls le llbl lv lsel lbr lpos ll lr]; [contradiction|].
    destruct r as [|rs re rlbl rv rsel rbr rpos rl rr]; [contradiction|].
    simpl in H. injection H as <-.
    pose proof Hfl as ((Hl1 & _) & _). pose proof Hfr as ((Hr1 & _) & _).
    simpl in Hcl, Hcr, Hl1, Hr1.
    destruct Hcl as [-> ->]. destruct Hcr as [-> ->].
    destruct Hl1 as [_ ->]. destruct Hr1 as [_ ->].
    split; [simpl; tauto|]. split; [lia|].
    split; [|split; assumption].
    split; [|reflexivity]. simpl.
    destruct (Z.eqb_spec s e); [lia|]. split; [reflexivity|].
    destruct (Z.leb_spec ((s + e) / 2 + 1) br), (Z.leb_spec br e),
             (Z.leb_spec s br), (Z.leb_spec br ((s + e) / 2));
      simpl; trivial; lia.
Qed.

(** The tree does not depend on the recursion allowance that was enough
    to build it. *)
Lemma build_tree_allowance d1 : forall d2 s e o1 o2,
  SegmentTree.build_tree vals lbls sel br d1 s e = Ok o1 ->
  SegmentTree.build_tree vals lbls sel br d2 s e = Ok o2 ->
  o1 = o2.
Proof.
  induction d1 as [|d1 IH]; intros d2 s e o1 o2 H1 H2; [discriminate|].
  destruct d2 as [|d2]; [discriminate|].
  rewrite build_tree_eq in H1, H2. destruct (s =? e); [congruence|].
  destruct (SegmentTree.build_tree vals lbls sel br d1 s ((s + e) / 2))
    as [l1|] eqn:Bl1; simpl in H1; [|discriminate].
  destruct (SegmentTree.build_tree vals lbls sel br d2 s ((s + e) / 2))
    as [l2|] eqn:Bl2; simpl in H2; [|discriminate].
  destruct (SegmentTree.build_tree vals lbls sel br d1 ((s + e) / 2 + 1) e)
    as [r1|] eqn:Br1; simpl in H1; [|discriminate].
  destruct (SegmentTree.build_tree vals lbls sel br d2 ((s + e) / 2 + 1) e)
    as [r2|] eqn:Br2; simpl in H2; [|discriminate].
  rewrite (IH _ _ _ _ _ Bl1 Bl2), (IH _ _ _ _ _ Br1 Br2) in H1.
  congruence.
Qed.

(** A range of more than [2 ^ (d - 1)] cells needs more than [d] nested
    calls: the leftmost branch alone is deeper. *)
Lemma build_tree_too_deep d : forall s e,
  2 ^ (Z.of_nat d - 1) < e - s + 1 ->
  SegmentTree.build_tree vals lbls sel br d s e = Raise RecursionError.
Proof.
  induction d as [|d IH]; intros s e Hsz; [reflexivity|].
  replace (Z.of_nat (S d) - 1) with (Z.of_nat d) in Hsz by lia.
  assert (Hp : 0 < 2 ^ Z.of_nat d) by (apply Z.pow_pos_nonneg; lia).
  rewrite build_tree_eq. destruct (Z.eqb_spec s e); [lia|].
  rewrite IH; [reflexivity|].
  pose proof (Z.div_mod (s + e) 2 ltac:(lia)).
  pose proof (Z.mod_pos_bound (s + e) 2 ltac:(lia)).
  destruct d as [|d]; [change (2 ^ (Z.of_nat 0 - 1)) with 0; simpl in Hsz; lia|].
  replace (Z.of_nat (S d) - 1) with (Z.of_nat d) by lia.
  rewrite Nat2Z.inj_succ, Z.pow_succ_r in Hsz by lia. lia.
Qed.

End BuildMore.

Lemma update_fields st idx v :
  values (fst (SegmentTree.update st idx v)) = values st
  /\ labels (fst (SegmentTree.update st idx v)) = labels st
  /\ selected_idx (fst (SegmentTree.update st idx v)) = selected_idx st
  /\ branch_idx (fst (SegmentTree.update st idx v)) = branch_idx st.
Proof.
  unfold SegmentTree.update.
  destruct (TreeNode.update (root st) idx v). repeat split.
Qed.

Lemma updates_fields calls : forall st,
  values (fst (updates st calls)) = values st
  /\ labels (fst (updates st calls)) = labels st
  /\ selected_idx (fst (updates st calls)) = selected_idx st
  /\ branch_idx (fst (updates st calls)) = branch_idx st.
Proof.
  induction calls as [|[idx v] calls IH]; intros st; simpl; [repeat split|].
  pose proof (update_fields st idx v) as (H1 & H2 & H3 & H4).
  destruct (SegmentTree.update st idx v) as [st1 [[]|x]]; simpl in *.
  - destruct (IH st1) as (I1 & I2 & I3 & I4).
    repeat split; congruence.
  - repeat split; assumption.
Qed.

Lemma updates_forget_values calls : forall st,
  forget_values (root (fst (updates st calls))) = forget_values (root st).
Proof.
  induction calls as [|[idx v] calls IH]; intros st; simpl; [reflexivity|].
  pose proof (update_root st idx v) as Hr.
  pose proof (update_forget_values (root st) idx v) as Hf.
  destruct (SegmentTree.update st idx v) as [st1 [[]|x]]; simpl in *.
  - rewrite IH. congruence.
  - congruence.
Qed.

(** A reachable tree stores some array of [size] cells. *)
Lemma reachable_models st :
  reachable st ->
  exists a, models a st /\ Z.of_nat (length a) = size st.
Proof.
  intros (depth & vals & lbls & sel & br & st0 & calls & Hst & Hcalls & Hfst).
  destruct (init_sound _ _ _ _ _ _ Hst) as (Hv & _ & _ & Hm & _).
  unfold size in Hcalls. rewrite Hv in Hcalls.
  destruct (updates_models calls vals st0 Hm Hcalls) as (st' & Hu & Hm').
  rewrite Hu in Hfst. simpl in Hfst. subst st'.
  exists (assignments vals calls). split; [exact Hm'|].
  rewrite assignments_length. unfold size.
  pose proof (updates_fields calls st0) as (Hvals & _).
  rewrite Hu in Hvals. simpl in Hvals. congruence.
Qed.

Lemma forget_values_none o : forget_values o = PyNone -> o = PyNone.
Proof. destruct o; [reflexivity | discriminate]. Qed.

(** Two trees of the same shape that satisfy the invariant and store the
    same cells are the same tree. *)
Lemma tree_determined o1 : invariant o1 -> forall f o2,
  invariant o2 -> forget_values o1 = forget_values o2 ->
  leaves_hold f o1 -> leaves_hold f o2 -> o1 = o2.
Proof.
  induction 1 as [s0 lbl v0 sel br pos
                 |s0 e0 lbl sel br pos l r lv rv Hlt Hl IHl Hr IHr Hcl Hcr Hvl Hvr];
    intros f o2 Hi2 Hfv Hl1 Hl2.
  - destruct o2 as [|s2 e2 lbl2 v2 sel2 br2 pos2 l2 r2]; [discriminate|].
    simpl in Hfv. injection Hfv as <- <- <- <- <- <- Hfl Hfr.
    symmetry in Hfl, Hfr.
    apply forget_values_none in Hfl, Hfr. subst l2 r2.
    simpl in Hl1, Hl2. destruct Hl1 as [E1 _]. destruct Hl2 as [E2 _].
    rewrite E1, E2; reflexivity.
  - destruct o2 as [|s2 e2 lbl2 v2 sel2 br2 pos2 l2 r2]; [discriminate|].
    simpl in Hfv. injection Hfv as <- <- <- <- <- <- Hfl Hfr.
    simpl in Hl1, Hl2. destruct Hl1 as (_ & Hll & Hlr).
    destruct Hl2 as (_ & Hll2 & Hlr2).
    inversion Hi2 as [|? ? ? ? ? ? ? ? lv2 rv2 _ Hil2 Hir2 _ _ Hvl2 Hvr2]; subst;
      [lia|].
    rewrite <- (IHl f l2 Hil2 Hfl Hll Hll2) in *.
    rewrite <- (IHr f r2 Hir2 Hfr Hlr Hlr2) in *.
    congruence.
Qed.

Lemma models_unique a st1 st2 :
  models a st1 -> models a st2 ->
  forget_values (root st1) = forget_values (root st2) ->
  values st1 = values st2 -> labels st1 = labels st2 ->
  selected_idx st1 = selected_idx st2 -> branch_idx st1 = branch_idx st2 ->
  st1 = st2.
Proof.
  intros (_ & Hi1 & _ & Hl1) (_ & Hi2 & _ & Hl2) Hf Hv Hlb Hs Hb.
  pose proof (tree_determined _ Hi1 _ _ Hi2 Hf Hl1 Hl2) as Hr.
  destruct st1, st2; simpl in *. congruence.
Qed.

Lemma setitem_nat_twice {A} (l : list A) : forall i v w,
  setitem_nat (setitem_nat l i v) i w = setitem_nat l i w.
Proof.
  induction l as [|x l IH]; intros [|i] v w; simpl; try reflexivity.
  now rewrite IH.
Qed.

Lemma setitem_nat_swap {A} (l : list A) : forall i j v w,
  i <> j ->
  setitem_nat (setitem_nat l i v) j w = setitem_nat (setitem_nat l j w) i v.
Proof.
  induction l as [|x l IH]; intros [|i] [|j] v w Hij; simpl;
    try reflexivity; try congruence.
  rewrite IH by congruence. reflexivity.
Qed.

Lemma setitem_nat_same {A} (d : A) (l : list A) : forall i,
  setitem_nat l i (nth i l d) = l.
Proof.
  induction l as [|x l IH]; intros [|i]; simpl; try reflexivity.
  now rewrite IH.
Qed.

(** One [update] on a tree that stores [a]: the tree afterwards, with all
    that the later proofs need about it. *)
Lemma update_step a st idx v :
  models a st -> 0 <= idx < Z.of_nat (length a) ->
  let st' := fst (SegmentTree.update st idx v) in
  snd (SegmentTree.update st idx v) = Ok tt
  /\ models (setitem a idx v) st'
  /\ forget_values (root st') = forget_values (root st)
  /\ values st' = values st /\ labels st' = labels st
  /\ selected_idx st' = selected_idx st /\ branch_idx st' = branch_idx st.
Proof.
  intros Hm Hidx st'. subst st'.
  destruct (update_models a st idx v Hm Hidx) as (st1 & Hu & Hm1).
  pose proof (update_fields st idx v) as (F1 & F2 & F3 & F4).
  pose proof (update_root st idx v) as Hr.
  pose proof (update_forget_values (root st) idx v) as Hf.
  rewrite Hu in *. simpl in *.
  repeat split; trivial; try apply Hm1. congruence.
Qed.

Lemma lmax_cons_cells f s k :
  lmax (f s :: cells f (s + 1) k) = Z.max (f s) (lmax (cells f (s + 1) k)).
Proof. destruct k; apply lmax_cons. Qed.

Lemma lmax_cells_ge f k : forall s i,
  s <= i <= s + Z.of_nat k -> f i <= lmax (cells f s k).
Proof.
  induction k as [|k IH]; intros s i Hi.
  - assert (i = s) by lia. subst i. simpl. lia.
  - change (cells f s (S k)) with (f s :: cells f (s + 1) k).
    rewrite lmax_cons_cells.
    destruct (Z.eq_dec i s) as [->|Hne]; [lia|].
    pose proof (IH (s + 1) i ltac:(lia)). lia.
Qed.

Lemma lmax_cells_attained f k : forall s,
  exists i, s <= i <= s + Z.of_nat k /\ lmax (cells f s k) = f i.
Proof.
  induction k as [|k IH]; intros s.
  - exists s. simpl. split; [lia | reflexivity].
  - change (cells f s (S k)) with (f s :: cells f (s + 1) k).
    rewrite lmax_cons_cells.
    destruct (IH (s + 1)) as (i & Hi & Hmax).
    destruct (Z.max_spec (f s) (lmax (cells f (s + 1) k))) as [[_ ->]|[_ ->]].
    + exists i. split; [lia | exact Hmax].
    + exists s. split; [lia | reflexivity].
Qed.

Lemma path_length o : invariant o -> forall s e k idx,
  covers o s e -> e - s + 1 <= 2 ^ Z.of_nat k ->
  (length (path_to o idx) <= k)%nat.
Proof.
  induction 1 as [s0 lbl v0 sel br pos
                 |s0 e0 lbl sel br pos l r lv rv Hlt Hl IHl Hr IHr Hcl Hcr Hvl Hvr];
    intros s e k idx Hcov Hsz; simpl in Hcov; destruct Hcov as [<- <-]; simpl.
  - rewrite Z.eqb_refl. simpl. lia.
  - destruct (Z.eqb_spec s0 e0); [lia|].
    destruct k as [|k]; [simpl in Hsz; lia|].
    rewrite Nat2Z.inj_succ, Z.pow_succ_r in Hsz by lia.
    destruct (half_sizes s0 e0 _ Hlt Hsz) as [Hsl Hsr].
    destruct (idx <=? (s0 + e0) / 2); simpl.
    + pose proof (IHl _ _ k idx Hcl Hsl). lia.
    + pose proof (IHr _ _ k idx Hcr Hsr). lia.
Qed.

(** *** Positions *)

Lemma node_count_keys o : node_count o = Z.of_nat (length (keys o)).
Proof.
  induction o as [|s e lbl v sel br pos l IHl r IHr]; simpl; [reflexivity|].
  rewrite length_app. simpl length. lia.
Qed.

Lemma positioned_positions o : forall n,
  inorder_positions (positioned o (Z.of_nat n)) =
  map (fun i => Some (Z.of_nat i)) (seq n (length (keys o))).
Proof.
  induction o as [|s e lbl v sel br pos l IHl r IHr]; intros n; simpl;
    [reflexivity|].
  rewrite length_app. simpl length. rewrite seq_app, map_app. simpl seq.
  simpl map. rewrite node_count_keys.
  replace (Z.of_nat n + Z.of_nat (length (keys l)) + 1)
    with (Z.of_nat (S (n + length (keys l)))) by lia.
  rewrite IHl, IHr. do 3 f_equal. lia.
Qed.

Lemma node_count_invariant o : invariant o -> forall s e,
  covers o s e -> node_count o = 2 * (e - s) + 1.
Proof.
  induction 1 as [s0 lbl v0 sel br pos
                 |s0 e0 lbl sel br pos l r lv rv Hlt Hl IHl Hr IHr Hcl Hcr Hvl Hvr];
    intros s e Hcov; simpl in Hcov; destruct Hcov as [<- <-];
    cbn [node_count].
  - lia.
  - rewrite (IHl _ _ Hcl), (IHr _ _ Hcr). lia.
Qed.

Lemma positioned_layout o : invariant o -> forall s e,
  covers o s e -> Forall_nodes laid_out (positioned o (2 * s)).
Proof.
  induction 1 as [s0 lbl v0 sel br pos
                 |s0 e0 lbl sel br pos l r lv rv Hlt Hl IHl Hr IHr Hcl Hcr Hvl Hvr];
    intros s e Hcov; simpl in Hcov; destruct Hcov as [<- <-].
  - simpl. unfold layout_pos. rewrite Z.eqb_refl, Z.add_0_r. tauto.
  - pose proof (node_count_invariant _ Hl _ _ Hcl) as Hn.
    cbn [positioned Forall_nodes laid_out]. rewrite Hn.
    replace (2 * s0 + (2 * ((s0 + e0) / 2 - s0) + 1) + 1)
      with (2 * ((s0 + e0) / 2 + 1)) by lia.
    split; [|split; [apply (IHl _ _ Hcl) | apply (IHr _ _ Hcr)]].
    unfold layout_pos. destruct (Z.eqb_spec s0 e0); [lia|]. f_equal. lia.
Qed.

Lemma positioned_has_positions o : forall n,
  Forall_nodes (fun x => get_inorder_pos x <> None) (positioned o n).
Proof.
  induction o as [|s e lbl v sel br pos l IHl r IHr]; intros n; simpl;
    [trivial|]. split; [discriminate|]. split; [apply IHl | apply IHr].
Qed.

Lemma positioned_none o n : positioned o n = PyNone -> o = PyNone.
Proof. destruct o; [reflexivity | discriminate]. Qed.

Lemma query_positioned o : forall n qs qe,
  TreeNode.query (positioned o n) qs qe = TreeNode.query o qs qe.
Proof.
  induction o as [|s e lbl v sel br pos l IHl r IHr]; intros n qs qe; simpl;
    [reflexivity|]. now rewrite !IHl, !IHr.
Qed.

Lemma keys_forget_values o : keys (forget_values o) = keys o.
Proof.
  induction o as [|s e lbl v sel br pos l IHl r IHr]; simpl;
    [reflexivity|]. now rewrite IHl, IHr.
Qed.

Lemma flags_forget_values sel br o1 : forall o2,
  forget_values o1 = forget_values o2 ->
  Forall_nodes (fun x => flags_of sel br x /\ get_inorder_pos x = None) o1 ->
  Forall_nodes (fun x => flags_of sel br x /\ get_inorder_pos x = None) o2.
Proof.
  induction o1 as [|s e lbl v isel ibr pos l IHl r IHr]; intros o2 Hf H.
  - symmetry in Hf. apply forget_values_none in Hf. now subst.
  - destruct o2 as [|s2 e2 lbl2 v2 sel2 br2 pos2 l2 r2]; [discriminate|].
    simpl in Hf. injection Hf as <- <- <- <- <- <- Hfl Hfr.
    simpl in *. destruct H as (Ho & Hl & Hr). auto.
Qed.

(** A reachable tree carries the flags of its [selected_idx] and
    [branch_idx], and no position. *)
Lemma reachable_flags st :
  reachable st ->
  Forall_nodes (fun x => flags_of (selected_idx st) (branch_idx st) x
                         /\ get_inorder_pos x = None) (root st).
Proof.
  intros (depth & vals & lbls & sel & br & st0 & calls & Hst & _ & Hfst).
  subst st.
  pose proof (updates_fields calls st0) as (_ & _ & -> & ->).
  apply (flags_forget_values _ _ (root st0));
    [symmetry; apply updates_forget_values|].
  unfold SegmentTree.init in Hst.
  destruct (SegmentTree.build_tree vals lbls sel br depth 0
              (Z.of_nat (length vals) - 1)) as [o|] eqn:B; [|discriminate].
  simpl in Hst. injection Hst as <-. simpl.
  apply (build_tree_flags _ _ _ _ _ _ _ _ B).
Qed.

(** *** Drawing *)

Lemma draw_eq s e lbl v sel br x l r y :
  TreeNode.draw (TreeNode s e lbl v sel br (Some x) l r) y =
  let s_ := ("(" ++ str v ++ ") " ++ lbl ++ " [" ++ str s ++ ":"
                 ++ str e ++ "]")%string in
  let '(calls_l, res_l) :=
    TreeNode.draw_child x y (y - 1) l (TreeNode.draw l (y - 1)) in
  match res_l with
  | Raise ex => ([scatter x y; text x y s_ sel] ++ calls_l, Raise ex)
  | Ok _ =>
      let '(calls_r, res_r) :=
        TreeNode.draw_child x y (y - 1) r (TreeNode.draw r (y - 1)) in
      ([scatter x y; text x y s_ sel] ++ calls_l ++ calls_r, res_r)
  end.
Proof. reflexivity. Qed.

(** On a tree whose nodes all have a position, [draw] runs to its end. *)
Lemma draw_spec o :
  Forall_nodes (fun x => get_inorder_pos x <> None) o -> forall y,
  match o with
  | PyNone => True
  | TreeNode s e lbl v sel br pos l r =>
      exists x s_,
        pos = Some x
        /\ TreeNode.draw o y =
           ([scatter x y; text x y s_ sel]
              ++ child_calls x y l ++ child_calls x y r, Ok tt)
  end.
Proof.
  induction o as [|s e lbl v sel br pos l IHl r IHr]; intros H y; [exact I|].
  destruct H as (Hp & Hl & Hr). simpl in Hp.
  destruct pos as [x|]; [|congruence].
  assert (El : TreeNode.draw_child x y (y - 1) l (TreeNode.draw l (y - 1))
               = (child_calls x y l, Ok tt)).
  { specialize (IHl Hl (y - 1)).
    destruct l as [|ls le ll lv lsel lbr lpos l1 l2]; [reflexivity|].
    destruct IHl as (xl & sl & -> & E).
    unfold child_calls, TreeNode.draw_child. rewrite E. reflexivity. }
  assert (Er : TreeNode.draw_child x y (y - 1) r (TreeNode.draw r (y - 1))
               = (child_calls x y r, Ok tt)).
  { specialize (IHr Hr (y - 1)).
    destruct r as [|rs re rl rv rsel rbr rpos r1 r2]; [reflexivity|].
    destruct IHr as (xr & sr & -> & E).
    unfold child_calls, TreeNode.draw_child. rewrite E. reflexivity. }
  eexists x, _. split; [reflexivity|].
  rewrite draw_eq, El, Er. reflexivity.
Qed.

Lemma draw_counts o :
  Forall_nodes (fun x => get_inorder_pos x <> None) o -> forall y,
  length (filter is_scatter (fst (TreeNode.draw o y))) = length (keys o)
  /\ length (filter is_text (fst (TreeNode.draw o y))) = length (keys o)
  /\ length (filter is_plot (fst (TreeNode.draw o y))) = pred (length (keys o)).
Proof.
  induction o as [|s e lbl v sel br pos l IHl r IHr]; intros H y;
    [repeat split|].
  pose proof (draw_spec _ H y) as (x & s_ & -> & E).
  destruct H as (_ & Hl & Hr). rewrite E. cbn [fst].
  assert (Cl : length (filter is_scatter (child_calls x y l)) = length (keys l)
               /\ length (filter is_text (child_calls x y l)) = length (keys l)
               /\ length (filter is_plot (child_calls x y l)) = length (keys l)).
  { specialize (IHl Hl (y - 1)).
    destruct l as [|ls le ll lv lsel lbr lpos l1 l2]; [repeat split|].
    destruct Hl as (Hp & _). simpl in Hp. destruct lpos; [|congruence].
    destruct IHl as (I1 & I2 & I3).
    cbn [child_calls filter is_scatter is_text is_plot length].
    rewrite I1, I2, I3. cbn [keys]. rewrite length_app. simpl length.
    repeat split; lia. }
  assert (Cr : length (filter is_scatter (child_calls x y r)) = length (keys r)
               /\ length (filter is_text (child_calls x y r)) = length (keys r)
               /\ length (filter is_plot (child_calls x y r)) = length (keys r)).
  { specialize (IHr Hr (y - 1)).
    destruct r as [|rs re rl rv rsel rbr rpos r1 r2]; [repeat split|].
    destruct Hr as (Hp & _). simpl in Hp. destruct rpos; [|congruence].
    destruct IHr as (I1 & I2 & I3).
    cbn [child_calls filter is_scatter is_text is_plot length].
    rewrite I1, I2, I3. cbn [keys]. rewrite length_app. simpl length.
    repeat split; lia. }
  destruct Cl as (L1 & L2 & L3). destruct Cr as (R1 & R2 & R3).
  cbn [keys]. rewrite !filter_app, !length_app, L1, L2, L3, R1, R2, R3.
  simpl. repeat split; lia.
Qed.

Lemma path_to_positioned o : forall n idx,
  path_to (positioned o n) idx = path_to o idx.
Proof.
  induction o as [|s e lbl v sel br pos l IHl r IHr]; intros n idx; simpl;
    [reflexivity|]. now rewrite IHl, IHr.
Qed.


Lemma cells_agree {A} (f g : Z -> A) k : forall s,
  (forall i, s <= i <= s + Z.of_nat k -> f i = g i) ->
  cells f s k = cells g s k.
Proof.
  induction k as [|k IH]; intros s H; simpl.
  - rewrite H by lia. reflexivity.
  - rewrite H by lia. f_equal. apply IH. intros i Hi. apply H. lia.
Qed.

Lemma draw_tree st :
  fst (fst (SegmentTree.draw st)) = fst (SegmentTree.inorder st).
Proof.
  unfold SegmentTree.draw. destruct (SegmentTree.inorder st) as [st1 ks].
  destruct (root st1); [reflexivity|].
  now destruct (TreeNode.draw _ 0).
Qed.

Lemma draw_calls st :
  snd (fst (SegmentTree.draw st)) = fst (TreeNode.draw (positioned (root st) 0) 0)
  /\ snd (SegmentTree.draw st) = Ok tt.
Proof.
  pose proof (inorder_root st) as Hr.
  unfold SegmentTree.draw. destruct (SegmentTree.inorder st) as [st1 ks].
  simpl in Hr. subst st1. cbn [root].
  pose proof (draw_spec _ (positioned_has_positions (root st) 0) 0) as Hd.
  destruct (positioned (root st) 0) as [|s e lbl v sel br pos l r] eqn:E.
  - split; reflexivity.
  - destruct Hd as (x & s_ & _ & ->). split; reflexivity.
Qed.

Lemma scenario_reachable : reachable scenario_tree.
Proof.
  exists 5%nat, scenario_values, scenario_labels, (-1), (-1), scenario_tree, [].
  split; [reflexivity|]. split; [constructor | reflexivity].
Defined.

(** ** Properties beyond the specification *)

(** X1 (flags set by construction).  In a built tree, [is_selected] is set
    on exactly the leaf whose index is [selected_idx], [branch] on exactly
    the nodes whose range contains [branch_idx], and no node has an
    [inorder_pos] yet. *)
Theorem build_marks_selected_and_branch
        depth vals lbls sel br st p s e lbl v is_sel is_br pos l r :
  SegmentTree.init depth vals lbls sel br = Ok st ->
  subtree (root st) p = TreeNode s e lbl v is_sel is_br pos l r ->
  is_sel = (s =? e) && (sel =? s)
  /\ is_br = (s <=? br) && (br <=? e)
  /\ pos = None.
Proof.
  intros Hst Hp. unfold SegmentTree.init in Hst.
  destruct (SegmentTree.build_tree vals lbls sel br depth 0
              (Z.of_nat (length vals) - 1)) as [o|] eqn:B; [|discriminate].
  simpl in Hst. injection Hst as <-. simpl in Hp.
  destruct (build_tree_flags _ _ _ _ _ _ _ _ B) as (_ & _ & Hf).
  pose proof (Forall_nodes_subtree _ _ Hf p) as H. rewrite Hp in H.
  destruct (H ltac:(discriminate)) as ((H1 & H2) & H3).
  simpl in H3. auto.
Qed.

Lemma build_marks_selected_and_branch_witness :
  SegmentTree.init 3 [3; 1; 2] ["a"; "b"; "c"]%string 1 2
  = Ok (mkSegmentTree [3; 1; 2] ["a"; "b"; "c"]%string 1 2
          (TreeNode 0 2 EmptyString 3 false true None
             (TreeNode 0 1 EmptyString 3 false false None
                (TreeNode 0 0 "a" 3 false false None PyNone PyNone)
                (TreeNode 1 1 "b" 1 true false None PyNone PyNone))
             (TreeNode 2 2 "c" 2 false true None PyNone PyNone)))
  /\ false = (2 =? 2) && (1 =? 2)
  /\ true = (2 <=? 2) && (2 <=? 2)
  /\ (None : option Z) = None.
Proof.
  split; [reflexivity|].
  eapply (build_marks_selected_and_branch 3 [3; 1; 2] ["a"; "b"; "c"]%string 1 2
            _ [GoRight] 2 2 "c"%string 2 false true None PyNone PyNone);
    reflexivity.
Defined.

(** X2 (nesting depth of construction).  For a non-empty array with as
    many labels, construction succeeds exactly when the recursion
    allowance [depth] satisfies [len(vals) <= 2 ^ (depth - 1)]; with a
    smaller allowance it raises [RecursionError]. *)
Theorem construction_nesting_depth depth vals lbls sel br :
  vals <> [] ->
  length lbls = length vals ->
  ((exists st, SegmentTree.init depth vals lbls sel br = Ok st)
   <-> Z.of_nat (length vals) <= 2 ^ (Z.of_nat depth - 1))
  /\ (2 ^ (Z.of_nat depth - 1) < Z.of_nat (length vals) ->
      SegmentTree.init depth vals lbls sel br = Raise RecursionError).
Proof.
  intros Hne Hlen.
  assert (Hdeep : 2 ^ (Z.of_nat depth - 1) < Z.of_nat (length vals) ->
                  SegmentTree.init depth vals lbls sel br = Raise RecursionError).
  { intros Hd. unfold SegmentTree.init.
    rewrite build_tree_too_deep by lia. reflexivity. }
  split; [split|exact Hdeep].
  - intros [st Hst].
    destruct (Z_le_gt_dec (Z.of_nat (length vals)) (2 ^ (Z.of_nat depth - 1)))
      as [Hle|Hgt]; [exact Hle|].
    rewrite Hdeep in Hst by lia. discriminate.
  - intros Hd. apply init_total; trivial. lia.
Qed.

Lemma construction_nesting_depth_witness :
  scenario_values <> []
  /\ length scenario_labels = length scenario_values
  /\ SegmentTree.init 4 scenario_values scenario_labels (-1) (-1)
     = Raise RecursionError.
Proof.
  split; [discriminate|]. split; [reflexivity|].
  apply (construction_nesting_depth 4 scenario_values scenario_labels (-1) (-1));
    [discriminate | reflexivity | reflexivity].
Defined.

(** X3 (the allowance does not shape the tree).  Two recursion allowances
    under which construction of the same input succeeds give the same
    tree. *)
Theorem construction_independent_of_allowance d1 d2 vals lbls sel br st1 st2 :
  SegmentTree.init d1 vals lbls sel br = Ok st1 ->
  SegmentTree.init d2 vals lbls sel br = Ok st2 ->
  st1 = st2.
Proof.
  unfold SegmentTree.init. intros H1 H2.
  destruct (SegmentTree.build_tree vals lbls sel br d1 0
              (Z.of_nat (length vals) - 1)) as [o1|] eqn:B1; [|discriminate].
  destruct (SegmentTree.build_tree vals lbls sel br d2 0
              (Z.of_nat (length vals) - 1)) as [o2|] eqn:B2; [|discriminate].
  simpl in H1, H2. injection H1 as <-. injection H2 as <-.
  now rewrite (build_tree_allowance _ _ _ _ _ _ _ _ _ _ B1 B2).
Qed.

Lemma construction_independent_of_allowance_witness :
  SegmentTree.init 5 scenario_values scenario_labels (-1) (-1) = Ok scenario_tree
  /\ SegmentTree.init 9 scenario_values scenario_labels (-1) (-1) = Ok scenario_tree
  /\ scenario_tree = scenario_tree.
Proof.
  split; [reflexivity|]. split; [reflexivity|].
  apply (construction_independent_of_allowance 5 9 scenario_values scenario_labels
           (-1) (-1)); reflexivity.
Defined.

(** X4 (the last write wins).  On a reachable tree, two updates of the
    same valid index leave the tree that the second update alone
    leaves. *)
Theorem update_same_index_overwrites st idx v1 v2 :
  reachable st ->
  0 <= idx < size st ->
  fst (SegmentTree.update (fst (SegmentTree.update st idx v1)) idx v2)
  = fst (SegmentTree.update st idx v2).
Proof.
  intros Hr Hidx. destruct (reachable_models st Hr) as (a & Hm & Hn).
  rewrite <- Hn in Hidx.
  pose proof (update_step a st idx v1 Hm Hidx) as (_ & M1 & F1 & A1 & B1 & C1 & D1).
  pose proof (update_step a st idx v2 Hm Hidx) as (_ & M2 & F2 & A2 & B2 & C2 & D2).
  pose proof (update_step _ _ idx v2 M1 ltac:(rewrite setitem_length; exact Hidx))
    as (_ & M12 & F12 & A12 & B12 & C12 & D12).
  unfold setitem in M12 at 1. unfold setitem in M12 at 1.
  rewrite setitem_nat_twice in M12.
  apply (models_unique _ _ _ M12 M2); congruence.
Qed.

Lemma update_same_index_overwrites_witness :
  reachable scenario_tree
  /\ 0 <= 5 < size scenario_tree
  /\ fst (SegmentTree.update (fst (SegmentTree.update scenario_tree 5 200)) 5 7)
     = fst (SegmentTree.update scenario_tree 5 7).
Proof.
  split; [exact scenario_reachable|].
  split; [vm_compute; split; discriminate || reflexivity|].
  apply (update_same_index_overwrites scenario_tree 5 200 7 scenario_reachable).
  vm_compute; split; discriminate || reflexivity.
Defined.

(** X5 (updates of different cells commute).  On a reachable tree, two
    updates at different valid indices leave the same tree in either
    order. *)
Theorem updates_commute st i v j w :
  reachable st ->
  0 <= i < size st -> 0 <= j < size st -> i <> j ->
  fst (SegmentTree.update (fst (SegmentTree.update st i v)) j w)
  = fst (SegmentTree.update (fst (SegmentTree.update st j w)) i v).
Proof.
  intros Hr Hi Hj Hij. destruct (reachable_models st Hr) as (a & Hm & Hn).
  rewrite <- Hn in Hi, Hj.
  pose proof (update_step a st i v Hm Hi) as (_ & M1 & F1 & A1 & B1 & C1 & D1).
  pose proof (update_step a st j w Hm Hj) as (_ & M2 & F2 & A2 & B2 & C2 & D2).
  pose proof (update_step _ _ j w M1 ltac:(rewrite setitem_length; exact Hj))
    as (_ & M12 & F12 & A12 & B12 & C12 & D12).
  pose proof (update_step _ _ i v M2 ltac:(rewrite setitem_length; exact Hi))
    as (_ & M21 & F21 & A21 & B21 & C21 & D21).
  unfold setitem in M12 at 1. unfold setitem in M12 at 1.
  rewrite setitem_nat_swap in M12 by lia.
  apply (models_unique _ _ _ M12 M21); congruence.
Qed.

Lemma updates_commute_witness :
  reachable scenario_tree
  /\ 0 <= 5 < size scenario_tree /\ 0 <= 0 < size scenario_tree /\ 5 <> 0
  /\ fst (SegmentTree.update (fst (SegmentTree.update scenario_tree 5 200)) 0 7)
     = fst (SegmentTree.update (fst (SegmentTree.update scenario_tree 0 7)) 5 200).
Proof.
  assert (H5 : 0 <= 5 < size scenario_tree)
    by (vm_compute; split; discriminate || reflexivity).
  assert (H0 : 0 <= 0 < size scenario_tree)
    by (vm_compute; split; discriminate || reflexivity).
  split; [exact scenario_reachable|]. split; [exact H5|]. split; [exact H0|].
  split; [discriminate|].
  apply (updates_commute scenario_tree 5 200 0 7 scenario_reachable H5 H0).
  discriminate.
Defined.

(** X6 (writing back what is there).  On a reachable tree, an update of a
    valid index with the value that [query(idx, idx)] returns leaves the
    tree as it is. *)
Theorem update_with_current_value st idx v :
  reachable st ->
  0 <= idx < size st ->
  SegmentTree.query st idx idx = Ok v ->
  SegmentTree.update st idx v = (st, Ok tt).
Proof.
  intros Hr Hidx Hq. destruct (reachable_models st Hr) as (a & Hm & Hn).
  rewrite <- Hn in Hidx.
  rewrite (query_models a) in Hq by (trivial; lia).
  rewrite (slice_seg 0), seg_one in Hq by lia. simpl in Hq. injection Hq as <-.
  pose proof (update_step a st idx (arr 0 a idx) Hm Hidx)
    as (Hok & M1 & F1 & A1 & B1 & C1 & D1).
  replace (setitem a idx (arr 0 a idx)) with a in M1
    by (unfold setitem, arr; now rewrite setitem_nat_same).
  rewrite (surjective_pairing (SegmentTree.update st idx (arr 0 a idx))).
  rewrite Hok. f_equal.
  apply (models_unique _ _ _ M1 Hm); congruence.
Qed.

Lemma update_with_current_value_witness :
  reachable scenario_tree
  /\ 0 <= 5 < size scenario_tree
  /\ SegmentTree.query scenario_tree 5 5 = Ok 90
  /\ SegmentTree.update scenario_tree 5 90 = (scenario_tree, Ok tt).
Proof.
  split; [exact scenario_reachable|].
  split; [vm_compute; split; discriminate || reflexivity|].
  split; [reflexivity|].
  apply (update_with_current_value scenario_tree 5 90 scenario_reachable);
    [vm_compute; split; discriminate || reflexivity | reflexivity].
Defined.

(** X7 (an update stays outside the ranges that miss its index).  On a
    reachable tree, after an update at a valid index every query on a
    valid range that does not contain the index returns what it returned
    before. *)
Theorem update_keeps_queries_elsewhere st idx v s e :
  reachable st ->
  0 <= idx < size st ->
  0 <= s -> s <= e -> e < size st ->
  idx < s \/ e < idx ->
  SegmentTree.query (fst (SegmentTree.update st idx v)) s e
  = SegmentTree.query st s e.
Proof.
  intros Hr Hidx H1 H2 H3 Hout.
  destruct (reachable_models st Hr) as (a & Hm & Hn). rewrite <- Hn in *.
  pose proof (update_step a st idx v Hm Hidx) as (_ & M1 & _).
  pose proof (setitem_length a idx v) as Hlen.
  rewrite (query_models _ _ _ _ M1), (query_models _ _ _ _ Hm)
    by (rewrite ?Hlen; lia).
  rewrite !(slice_seg 0) by (rewrite ?Hlen; lia).
  do 2 f_equal. unfold seg. apply cells_agree. intros i Hi.
  rewrite arr_setitem by lia. unfold override.
  destruct (Z.eqb_spec i idx); [lia | reflexivity].
Qed.

Lemma update_keeps_queries_elsewhere_witness :
  reachable scenario_tree
  /\ 0 <= 5 < size scenario_tree
  /\ SegmentTree.query (fst (SegmentTree.update scenario_tree 5 200)) 6 9
     = SegmentTree.query scenario_tree 6 9.
Proof.
  split; [exact scenario_reachable|].
  split; [vm_compute; split; discriminate || reflexivity|].
  apply (update_keeps_queries_elsewhere scenario_tree 5 200 6 9 scenario_reachable);
    try (vm_compute; split; discriminate || reflexivity);
    try (vm_compute; discriminate || reflexivity).
  left. reflexivity.
Defined.

(** X8 (a query returns the greatest cell of its range).  On a reachable
    tree and a valid range, [query(s, e)] returns a value that no
    [query(i, i)] with [i] in the range exceeds and that some such
    [query(i, i)] returns. *)
Theorem query_is_greatest_cell st s e :
  reachable st ->
  0 <= s -> s <= e -> e < size st ->
  exists m,
    SegmentTree.query st s e = Ok m
    /\ (forall i, s <= i <= e ->
          exists x, SegmentTree.query st i i = Ok x /\ x <= m)
    /\ (exists i, s <= i <= e /\ SegmentTree.query st i i = Ok m).
Proof.
  intros Hr H1 H2 H3.
  destruct (reachable_models st Hr) as (a & (Hne & Hi & Hc & Hl) & Hn).
  rewrite <- Hn in *. set (f := arr 0 a) in *.
  assert (Hq : forall qs qe, 0 <= qs -> qs <= qe -> qe < Z.of_nat (length a) ->
                 SegmentTree.query st qs qe = Ok (lmax (seg f qs qe))).
  { intros qs qe Q1 Q2 Q3. apply (query_max _ Hi f _ _ _ _ Hc Hl); lia. }
  exists (lmax (seg f s e)). split; [apply Hq; lia|]. split.
  - intros i Hin. exists (f i). rewrite Hq, seg_one by lia.
    split; [reflexivity|]. unfold seg. apply lmax_cells_ge. lia.
  - destruct (lmax_cells_attained f (Z.to_nat (e - s)) s) as (i & Hin & Hmax).
    exists i. split; [lia|]. rewrite Hq, seg_one by lia.
    unfold seg. simpl lmax at 1. now rewrite Hmax.
Qed.

Lemma query_is_greatest_cell_witness :
  reachable scenario_tree
  /\ 0 <= 2 /\ 2 <= 8 /\ 8 < size scenario_tree
  /\ exists m,
       SegmentTree.query scenario_tree 2 8 = Ok m
       /\ (forall i, 2 <= i <= 8 ->
             exists x, SegmentTree.query scenario_tree i i = Ok x /\ x <= m)
       /\ (exists i, 2 <= i <= 8 /\ SegmentTree.query scenario_tree i i = Ok m).
Proof.
  split; [exact scenario_reachable|].
  split; [discriminate|]. split; [discriminate|]. split; [reflexivity|].
  apply (query_is_greatest_cell scenario_tree 2 8 scenario_reachable);
    [discriminate | discriminate | reflexivity].
Defined.

(** X9 (an update descends a logarithmic number of levels).  On a
    reachable tree of at most [2 ^ k] cells, the path that [update]
    descends has at most [k] edges, whatever the index. *)
Theorem update_descent_is_logarithmic st k idx :
  reachable st ->
  size st <= 2 ^ Z.of_nat k ->
  (length (path_to (root st) idx) <= k)%nat.
Proof.
  intros Hr Hk.
  destruct (reachable_models st Hr) as (a & (_ & Hi & Hc & _) & Hn).
  apply (path_length _ Hi _ _ _ _ Hc). lia.
Qed.

Lemma update_descent_is_logarithmic_witness :
  reachable scenario_tree
  /\ size scenario_tree <= 2 ^ Z.of_nat 4
  /\ (length (path_to (root scenario_tree) 5) <= 4)%nat.
Proof.
  split; [exact scenario_reachable|]. split; [vm_compute; discriminate|].
  apply (update_descent_is_logarithmic scenario_tree 4 5 scenario_reachable).
  vm_compute; discriminate.
Defined.

(** X10 (the traversal numbers the nodes).  For every tree, after the
    traversal the nodes taken in in-order carry the positions
    [0, 1, 2, ...]: the position of a node is the index of its label in
    the returned list. *)
Theorem traversal_numbers_nodes st :
  inorder_positions (root (fst (SegmentTree.inorder st)))
  = map (fun i => Some (Z.of_nat i))
        (seq 0 (length (snd (SegmentTree.inorder st)))).
Proof.
  rewrite inorder_root, inorder_keys. cbn [root].
  apply (positioned_positions (root st) 0).
Qed.

(** X11 (layout of a built tree).  After the traversal of a reachable
    tree, the leaf of index [i] has position [2 * i], and an internal
    node over [[s, e]] has position [2 * mid + 1] with
    [mid = (s + e) / 2]. *)
Theorem traversal_layout st p s e lbl v is_sel is_br pos l r :
  reachable st ->
  subtree (root (fst (SegmentTree.inorder st))) p
  = TreeNode s e lbl v is_sel is_br pos l r ->
  pos = Some (if s =? e then 2 * s else 2 * ((s + e) / 2) + 1).
Proof.
  intros Hr Hp.
  destruct (reachable_models st Hr) as (a & (_ & Hi & Hc & _) & _).
  rewrite inorder_root in Hp. cbn [root] in Hp.
  pose proof (positioned_layout _ Hi _ _ Hc) as Hl.
  pose proof (Forall_nodes_subtree _ _ Hl p) as H.
  change (2 * 0) with 0 in H. rewrite Hp in H.
  apply (H ltac:(discriminate)).
Qed.

Lemma traversal_layout_witness :
  reachable scenario_tree
  /\ subtree (root (fst (SegmentTree.inorder scenario_tree)))
             [GoRight; GoRight; GoLeft]
     = TreeNode 8 8 "i" 80 false false (Some 16) PyNone PyNone
  /\ Some 16 = Some (if 8 =? 8 then 2 * 8 else 2 * ((8 + 8) / 2) + 1).
Proof.
  split; [exact scenario_reachable|]. split; [reflexivity|].
  apply (traversal_layout scenario_tree [GoRight; GoRight; GoLeft]
           8 8 "i"%string 80 false false (Some 16) PyNone PyNone
           scenario_reachable).
  reflexivity.
Defined.

(** X12 (traversing and drawing do not disturb queries).  For every tree
    and every range, valid or not, [query] gives after [inorder()] and
    after [draw()] what it gives before. *)
Theorem traversal_keeps_queries st s e :
  SegmentTree.query (fst (SegmentTree.inorder st)) s e = SegmentTree.query st s e
  /\ SegmentTree.query (fst (fst (SegmentTree.draw st))) s e
     = SegmentTree.query st s e.
Proof.
  rewrite draw_tree, inorder_root. unfold SegmentTree.query. cbn [root].
  split; apply query_positioned.
Qed.

(** X13 (an update does not disturb the labels).  For every tree, index
    and value, the traversal after [update(idx, value)] returns the list
    of labels that it returns without the update. *)
Theorem update_keeps_labels st idx v :
  snd (SegmentTree.inorder (fst (SegmentTree.update st idx v)))
  = snd (SegmentTree.inorder st).
Proof.
  rewrite !inorder_keys, update_root.
  rewrite <- keys_forget_values, update_forget_values.
  apply keys_forget_values.
Qed.

(** X14 ([SegmentTree.draw] runs to its end).  For every tree,
    [SegmentTree.draw] raises nothing: the traversal it runs first gives
    every node the position that [TreeNode.draw] reads.  The tree it
    leaves is the one the traversal leaves. *)
Theorem draw_never_raises st :
  snd (SegmentTree.draw st) = Ok tt
  /\ fst (fst (SegmentTree.draw st)) = fst (SegmentTree.inorder st).
Proof.
  split; [apply draw_calls | apply draw_tree].
Qed.

(** X15 ([TreeNode.draw] needs a traversal first).  On a reachable tree,
    which no traversal has visited, [root.draw(y)] raises
    [AttributeError] before it has issued any plotting call. *)
Theorem draw_before_traversal_raises st y :
  reachable st ->
  TreeNode.draw (root st) y = ([], Raise AttributeError).
Proof.
  intros Hr. pose proof (reachable_flags st Hr) as Hf.
  destruct (root st) as [|s e lbl v sel br pos l r]; [reflexivity|].
  destruct Hf as ((_ & Hp) & _). simpl in Hp. now subst pos.
Qed.

Lemma draw_before_traversal_raises_witness :
  reachable scenario_tree
  /\ TreeNode.draw (root scenario_tree) 0 = ([], Raise AttributeError).
Proof.
  split; [exact scenario_reachable|].
  apply (draw_before_traversal_raises scenario_tree 0 scenario_reachable).
Defined.

(** X16 (how much is drawn).  Drawing a reachable tree of [n] leaves
    issues [2 * n - 1] [scatter] calls and as many [text] calls, one for
    each node, and [2 * n - 2] [plot] calls, one for each edge. *)
Theorem draw_call_counts st :
  reachable st ->
  let calls := snd (fst (SegmentTree.draw st)) in
  Z.of_nat (length (filter is_scatter calls)) = 2 * size st - 1
  /\ Z.of_nat (length (filter is_text calls)) = 2 * size st - 1
  /\ Z.of_nat (length (filter is_plot calls)) = 2 * size st - 2.
Proof.
  intros Hr calls. subst calls.
  destruct (reachable_models st Hr) as (a & (_ & Hi & Hc & _) & Hn).
  destruct (draw_calls st) as [-> _].
  destruct (draw_counts _ (positioned_has_positions (root st) 0) 0)
    as (-> & -> & ->).
  rewrite positioned_keys.
  pose proof (node_count_invariant _ Hi _ _ Hc) as Hcount.
  rewrite node_count_keys in Hcount. lia.
Qed.

Lemma draw_call_counts_witness :
  reachable scenario_tree
  /\ Z.of_nat (length (filter is_plot (snd (fst (SegmentTree.draw scenario_tree)))))
     = 2 * size scenario_tree - 2.
Proof.
  split; [exact scenario_reachable|].
  apply (draw_call_counts scenario_tree scenario_reachable).
Defined.



(** X18 ([update] never writes [self.values]).  After [update(idx, v)] on
    a built tree, [self.values] and [self.labels] are still the lists
    given to the constructor, while [query(idx, idx)] returns [v]. *)
Theorem update_leaves_values_attribute depth vals lbls sel br st idx v :
  SegmentTree.init depth vals lbls sel br = Ok st ->
  0 <= idx < Z.of_nat (length vals) ->
  values (fst (SegmentTree.update st idx v)) = vals
  /\ labels (fst (SegmentTree.update st idx v)) = lbls
  /\ SegmentTree.query (fst (SegmentTree.update st idx v)) idx idx = Ok v.
Proof.
  intros Hst Hidx.
  destruct (init_sound _ _ _ _ _ _ Hst) as (Hv & Hl & _ & Hm & _).
  pose proof (update_step vals st idx v Hm Hidx) as (_ & M1 & _ & A1 & B1 & _).
  pose proof (setitem_length vals idx v) as Hlen.
  split; [congruence|]. split; [congruence|].
  rewrite (query_models _ _ _ _ M1) by (rewrite ?Hlen; lia).
  rewrite (slice_seg 0) by (rewrite ?Hlen; lia).
  rewrite seg_one, arr_setitem by lia. simpl. unfold override.
  now rewrite Z.eqb_refl.
Qed.

Lemma update_leaves_values_attribute_witness :
  SegmentTree.init 5 scenario_values scenario_labels (-1) (-1) = Ok scenario_tree
  /\ 0 <= 5 < Z.of_nat (length scenario_values)
  /\ values (fst (SegmentTree.update scenario_tree 5 200)) = scenario_values
  /\ labels (fst (SegmentTree.update scenario_tree 5 200)) = scenario_labels
  /\ SegmentTree.query (fst (SegmentTree.update scenario_tree 5 200)) 5 5 = Ok 200.
Proof.
  split; [reflexivity|]. split; [simpl; lia|].
  apply (update_leaves_values_attribute 5 scenario_values scenario_labels (-1) (-1)
           scenario_tree 5 200); [reflexivity | simpl; lia].
Defined.

Lemma joins_nodes_incl calls calls' c :
  incl calls calls' -> joins_nodes calls c -> joins_nodes calls' c.
Proof.
  intros Hincl. destruct c; simpl; trivial.
  intros (H1 & H2 & H3). auto.
Qed.

Lemma draw_edges o :
  Forall_nodes (fun x => get_inorder_pos x <> None) o -> forall y,
  Forall (joins_nodes (fst (TreeNode.draw o y))) (fst (TreeNode.draw o y))
  /\ match get_inorder_pos o with
     | Some x => In (scatter x y) (fst (TreeNode.draw o y))
     | None => True
     end.
Proof.
  induction o as [|s e lbl v sel br pos l IHl r IHr]; intros H y;
    [split; [constructor | exact I]|].
  pose proof (draw_spec _ H y) as (x & s_ & -> & E).
  destruct H as (_ & Hl & Hr). rewrite E. cbn [fst get_inorder_pos].
  set (calls := [scatter x y; text x y s_ sel]
                  ++ child_calls x y l ++ child_calls x y r).
  assert (Hroot : In (scatter x y) calls) by (left; reflexivity).
  assert (Hchild : forall c, Forall_nodes (fun x => get_inorder_pos x <> None) c ->
            (forall y', Forall (joins_nodes (fst (TreeNode.draw c y')))
                               (fst (TreeNode.draw c y'))
                        /\ match get_inorder_pos c with
                           | Some x' => In (scatter x' y') (fst (TreeNode.draw c y'))
                           | None => True
                           end) ->
            incl (child_calls x y c) calls ->
            Forall (joins_nodes calls) (child_calls x y c)).
  { intros c Hc IH Hincl.
    destruct c as [|cs ce cl cv csel cbr cpos c1 c2]; [constructor|].
    destruct Hc as (Hp & _). simpl in Hp. destruct cpos as [xc|]; [|congruence].
    destruct (IH (y - 1)) as (I1 & I2). cbn [get_inorder_pos] in I2.
    cbn [child_calls] in Hincl |- *. constructor.
    - simpl. split; [reflexivity|]. split; [exact Hroot|].
      apply Hincl. right. exact I2.
    - eapply Forall_impl; [|exact I1]. intros c0.
      apply joins_nodes_incl. intros c1' Hin. apply Hincl. right. exact Hin. }
  split; [|exact Hroot].
  unfold calls at 2. apply Forall_app. split; [repeat constructor|].
  apply Forall_app. split.
  - apply (Hchild l Hl (IHl Hl)). intros c Hin. unfold calls.
    apply in_or_app. right. apply in_or_app. now left.
  - apply (Hchild r Hr (IHr Hr)). intros c Hin. unfold calls.
    apply in_or_app. right. apply in_or_app. now right.
Qed.

(** X19 (lines join nodes).  For every tree, each line that
    [SegmentTree.draw] plots goes from a scattered point one level down
    to another scattered point: from [(x, y)] to [(x_next, y - 1)]. *)
Theorem draw_lines_join_nodes st :
  Forall (joins_nodes (snd (fst (SegmentTree.draw st))))
         (snd (fst (SegmentTree.draw st))).
Proof.
  destruct (draw_calls st) as [-> _].
  apply (draw_edges _ (positioned_has_positions (root st) 0) 0).
Qed.
